(** * The circuit breaker of patterns/circuit_breaker.go

    A shallow embedding of [CircuitBreaker], [NewCircuitBreaker],
    [CircuitBreaker.Call] and [CircuitBreaker.GetState], followed by the
    properties of the call supervisor.

    Conventions of the embedding:
    - Go's [int] and [time.Duration] are 64-bit integers, carried by [Z] with
      the wrap-around of [+] written out ([wrap64]);
    - a [time.Time] obtained from [time.Now] carries its reading of the
      process clock in nanoseconds, and [time.Since] of it is the saturating
      difference the [time] package computes on such readings ([subMono]);
      the zero [time.Time] carries no reading;
    - everything outside the breaker that a call can observe or change (the
      clock, the allocator, the memory the wrapped operation works on) is
      the [World]; the wrapped operation [fn func() error] is a function
      that takes the world before it runs to the way it ended and the world
      it left;
    - an operation ends by returning or by panicking; in the second case
      only the deferred [Unlock] of [Call] runs, and the panic goes on to
      the caller. An operation that never ends is a goroutine that stays
      inside the operation (see the goroutines below). *)

From Stdlib Require Import ZArith String List Bool Lia.
Import ListNotations.
Open Scope Z_scope.

Set Implicit Arguments.

(** ** Go values the breaker works with *)

Module Go.

Definition min_int64 : Z := - 2 ^ 63.
Definition max_int64 : Z := 2 ^ 63 - 1.

(** Two's complement wrap-around of 64-bit signed arithmetic. *)
Definition wrap64 (z : Z) : Z := (z + 2 ^ 63) mod 2 ^ 64 - 2 ^ 63.

Definition in_int64 (z : Z) : Prop := min_int64 <= z <= max_int64.

(** [time.Duration]: nanoseconds in an int64. *)
Definition Duration : Type := Z.
Definition minDuration : Duration := min_int64.
Definition maxDuration : Duration := max_int64.
Definition Second : Duration := 1000000000.
Definition Millisecond : Duration := 1000000.

(** [time.Time]: the zero value [time.Time{}], which the fields of a
    composite literal get when they are left out and which has no reading of
    the process clock, or a value of [time.Now()], with the reading of the
    process clock it took, in nanoseconds. *)
Inductive Time : Type :=
| zeroTime
| At (reading : Z).

(** [time.subMono]: [t - u] on clock readings, saturating at the ends of
    [Duration]. *)
Definition subMono (t u : Z) : Duration :=
  let d := wrap64 (t - u) in
  if (d <? 0) && (t >? u) then maxDuration
  else if (d >? 0) && (t <? u) then minDuration
  else d.

(** [Time.Sub] of a value of [time.Now()] and a [Time]: [subMono] of the
    readings when both have one. The zero [Time] is year 1, more than the
    292 years a [Duration] holds before any time the clock shows, and the
    difference saturates. *)
Definition Time_Sub (now : Z) (t : Time) : Duration :=
  match t with
  | At u => subMono now u
  | zeroTime => maxDuration
  end.

(** A value of the interface type [error]: its dynamic type, the identity of
    the value (the address, for a pointer type) and the text its [Error]
    method returns. *)
Record error : Type := mkError {
  dynType : string;
  ident : N;
  Error : string
}.

Definition errorString_type : string := "*errors.errorString".

(** How a call [fn()] of a [func() error] ends: it returns, [None] being
    Go's [nil]; or it panics with a value (given by its text) and does not
    return. A call of a [nil] func panics, and [runtime.Goexit] unwinds the
    callers in the same way. *)
Inductive Result : Type :=
| Returned (err : option error)
| Panicked (v : string).

End Go.

Import Go.

(** ** The world around the breaker *)

Section WorldModel.

(** The state of the rest of the program: whatever the wrapped operation and
    the callers keep outside the breaker. *)
Context {U : Type}.

Record World : Type := mkWorld {
  clock : Z;        (* what time.Now and time.Since read *)
  heap : N;         (* the next address the allocator hands out *)
  user : U
}.

(** [fn func() error]: how the call [fn()] ends, and the world it leaves. *)
Definition Operation : Type := World -> Result * World.

(** [time.Now()]. *)
Definition Now (w : World) : Time := At (clock w).

(** [time.Since(t)]. *)
Definition Since (w : World) (t : Time) : Duration := Time_Sub (clock w) t.

(** [errors.New(text)]: a pointer to a fresh [errorString]. *)
Definition errors_New (text : string) (w : World) : error * World :=
  (mkError errorString_type (heap w) text,
   mkWorld (clock w) (N.succ (heap w)) (user w)).

(** [fmt.Errorf(format)] for a format without verbs and without operands:
    the text is the format, and the value comes from [errors.New]. *)
Definition fmt_Errorf (format : string) (w : World) : error * World :=
  errors_New format w.

End WorldModel.

Arguments World U : clear implicits.
Arguments Operation U : clear implicits.

(** ** The breaker *)

Inductive CircuitState : Type := CLOSED | OPEN | HALF_OPEN.

Record CircuitBreaker : Type := mkCircuitBreaker {
  state : CircuitState;
  failureCount : Z;
  lastFailure : Time;
  failureThreshold : Z;
  timeout : Duration
}.

Definition set_state (s : CircuitState) (cb : CircuitBreaker) : CircuitBreaker :=
  mkCircuitBreaker s (failureCount cb) (lastFailure cb)
                   (failureThreshold cb) (timeout cb).

Definition set_failureCount (n : Z) (cb : CircuitBreaker) : CircuitBreaker :=
  mkCircuitBreaker (state cb) n (lastFailure cb)
                   (failureThreshold cb) (timeout cb).

Definition set_lastFailure (t : Time) (cb : CircuitBreaker) : CircuitBreaker :=
  mkCircuitBreaker (state cb) (failureCount cb) t
                   (failureThreshold cb) (timeout cb).

(** [NewCircuitBreaker]: the fields the composite literal leaves out get
    their zero values. *)
Definition NewCircuitBreaker (threshold : Z) (timeout : Duration) : CircuitBreaker :=
  mkCircuitBreaker CLOSED 0 zeroTime threshold timeout.

(** [GetState]. *)
Definition GetState (cb : CircuitBreaker) : CircuitState := state cb.

(** The text of the error [Call] answers with when it rejects. *)
Definition open_text : string := "circuit breaker is OPEN".

(** The test the callers in the repository apply to an error returned by
    [Call]: [err.Error() == "circuit breaker is OPEN"]. *)
Definition is_open_rejection (e : error) : bool := String.eqb (Error e) open_text.

Section Call.

Context {U : Type}.

(** What the first statement of [Call] decides: return at once with an
    error, or go on to the operation with the breaker as it now is. *)
Inductive Gate : Type :=
| Reject (e : error) (w : World U)
| Proceed (cb : CircuitBreaker) (w : World U).

(** [Call], the statement [if cb.state == OPEN { ... }]. *)
Definition gate (cb : CircuitBreaker) (w : World U) : Gate :=
  match state cb with
  | OPEN =>
      if Since w (lastFailure cb) >? timeout cb
      then Proceed (set_failureCount 0 (set_state HALF_OPEN cb)) w
      else let (e, w') := fmt_Errorf open_text w in Reject e w'
  | _ => Proceed cb w
  end.

(** [Call], from [if err != nil] to the end: the bookkeeping on the result
    [err] of the operation, in the world [w] the operation left. *)
Definition settle (cb : CircuitBreaker) (err : option error) (w : World U)
  : CircuitBreaker * option error :=
  match err with
  | Some e =>
      let cb1 := set_failureCount (wrap64 (failureCount cb + 1)) cb in
      let cb2 :=
        match state cb1 with
        | HALF_OPEN => set_lastFailure (Now w) (set_state OPEN cb1)
        | _ =>
            let cb' := set_lastFailure (Now w) cb1 in
            if failureCount cb' >=? failureThreshold cb'
            then set_state OPEN cb'
            else cb'
        end in
      (cb2, Some e)
  | None =>
      let cb1 :=
        match state cb with
        | HALF_OPEN => set_state CLOSED cb
        | _ => cb
        end in
      (set_failureCount 0 cb1, None)
  end.

(** What a call leaves behind: how it ended (the value it returned, or the
    panic of the operation, which it lets through), the breaker and the
    world. *)
Record Outcome : Type := mkOutcome {
  ret : Result;
  breaker : CircuitBreaker;
  world : World U
}.

(** [Call], run on its own (the mutex is held from the first statement to
    the deferred [Unlock], see the goroutines below). When [fn()] panics
    the statements after it do not run: the breaker stays as the first
    statement left it. *)
Definition Call (cb : CircuitBreaker) (fn : Operation U) (w : World U) : Outcome :=
  match gate cb w with
  | Reject e w' => mkOutcome (Returned (Some e)) cb w'
  | Proceed cb1 w1 =>
      match fn w1 with
      | (Returned err, w2) =>
          let (cb2, r) := settle cb1 err w2 in
          mkOutcome (Returned r) cb2 w2
      | (Panicked v, w2) => mkOutcome (Panicked v) cb1 w2
      end
  end.

(** Whether [Call] reaches the statement [err := fn()]. *)
Definition invokes (cb : CircuitBreaker) (w : World U) : bool :=
  match gate cb w with
  | Reject _ _ => false
  | Proceed _ _ => true
  end.

End Call.

Arguments Gate U : clear implicits.
Arguments Outcome U : clear implicits.

(** ** Histories of calls *)

Section History.

Context {U : Type}.

(** One call of a history: the state [Call] found, whether it ran the
    operation, and how it ended. *)
Record Entry : Type := mkEntry {
  entered : CircuitState;
  invoked : bool;
  result : Result
}.

(** A breaker in use: the calls made so far, latest first, the breaker and
    the world. *)
Record Session : Type := mkSession {
  log : list Entry;
  current : CircuitBreaker;
  around : World U
}.

(** What a caller does next: the rest of the program runs for a while (time
    passes), then [Call] is made with an operation. A caller that goes on
    after a call that panicked has recovered from the panic. *)
Definition Step : Type := ((World U -> World U) * Operation U)%type.

Definition exec1 (s : Session) (stp : Step) : Session :=
  let w := fst stp (around s) in
  let o := Call (current s) (snd stp) w in
  mkSession (mkEntry (state (current s)) (invokes (current s) w) (ret o) :: log s)
            (breaker o) (world o).

Definition start (cb : CircuitBreaker) (w : World U) : Session :=
  mkSession [] cb w.

Definition run (cb : CircuitBreaker) (w : World U) (script : list Step) : Session :=
  fold_left exec1 script (start cb w).

(** How a call ended: the operation ran and returned an error, it ran and
    returned [nil], it was not run, or it ran and panicked. *)
Inductive Verdict : Type := Failure | Success | Rejection | Panic.

Definition verdict (e : Entry) : Verdict :=
  if invoked e
  then match result e with
       | Returned (Some _) => Failure
       | Returned None => Success
       | Panicked _ => Panic
       end
  else Rejection.

(** The verdicts of a history, in the order of the calls. *)
Definition verdicts (s : Session) : list Verdict := map verdict (rev (log s)).

(** The states the calls of a history left the breaker in, in the order of
    the calls. *)
Fixpoint states_after (cb : CircuitBreaker) (w : World U) (script : list Step)
  : list CircuitState :=
  match script with
  | [] => []
  | stp :: rest =>
      let o := Call cb (snd stp) (fst stp w) in
      state (breaker o) :: states_after (breaker o) (world o) rest
  end.

(** The consecutive failures at the end of a history: the latest calls whose
    operation returned an error, back to the last call whose operation
    returned [nil] or was not run, or to the beginning. A call whose
    operation panicked had no result, neither a failure nor a success, and
    is passed over. *)
Fixpoint streak (l : list Entry) : nat :=
  match l with
  | e :: l' =>
      match verdict e with
      | Failure => S (streak l')
      | Panic => streak l'
      | _ => O
      end
  | [] => O
  end.

(** What holds of a breaker in use, with threshold [th], between calls:
    while it is CLOSED the failure count is the number of consecutive
    failures at the end of the history, which is below the threshold. *)
Definition counted (th : Z) (s : Session) : Prop :=
  failureThreshold (current s) = th /\
  match state (current s) with
  | CLOSED =>
      failureCount (current s) = Z.of_nat (streak (log s)) /\
      Z.of_nat (streak (log s)) < th
  | _ => True
  end.

End History.

Arguments Session U : clear implicits.
Arguments Step U : clear implicits.

(** ** Goroutines that share one breaker

    [Call] takes [cb.mutex.Lock()] first and releases it by the deferred
    [Unlock], which runs when it returns and when the operation panics. The
    goroutines are interleaved statement by statement; [Lock] can only be
    taken while nobody holds the mutex. A goroutine need not be scheduled
    again: one that stays inside its operation for ever keeps the mutex. *)

Section Threads.

Context {U : Type}.

(** Where a goroutine stands in [cb.Call(fn)]. *)
Inductive Pc : Type :=
| Idle                                (* makes no call *)
| AtLock (fn : Operation U)           (* before cb.mutex.Lock() *)
| AtGate (fn : Operation U)           (* holds the mutex, before if cb.state == OPEN *)
| AtInvoke (fn : Operation U)         (* before err := fn() *)
| InFn (fn : Operation U)             (* fn is running *)
| AtSettle (err : option error)       (* fn returned, before if err != nil *)
| AtUnlock (r : Result)               (* return value set, or fn panicked;
                                         the deferred Unlock to run *)
| Done (r : Result).                  (* Call is over: it returned, or the
                                         panic went on to the caller *)

Record System : Type := mkSystem {
  shared : CircuitBreaker;
  locked : bool;                      (* cb.mutex is held *)
  pcs : nat -> Pc;
  sworld : World U;
  started : nat;                      (* operations started since the breaker
                                         last became HALF_OPEN *)
  panics : nat                        (* those of them that panicked *)
}.

Inductive Action : Type :=
| Run (i : nat)                              (* goroutine i runs its next statement *)
| Again (i : nat) (fn : Operation U)         (* goroutine i, back from a call (having
                                                recovered, if it panicked), makes another *)
| Elapse (f : World U -> World U).           (* the rest of the program runs, time passes *)

Definition upd (p : nat -> Pc) (i : nat) (x : Pc) : nat -> Pc :=
  fun j => if Nat.eqb j i then x else p j.

Definition fire (s : System) (a : Action) : option System :=
  match a with
  | Elapse f =>
      Some (mkSystem (shared s) (locked s) (pcs s) (f (sworld s))
                     (started s) (panics s))
  | Again i fn =>
      match pcs s i with
      | Done _ =>
          Some (mkSystem (shared s) (locked s) (upd (pcs s) i (AtLock fn))
                         (sworld s) (started s) (panics s))
      | _ => None
      end
  | Run i =>
      match pcs s i with
      | AtLock fn =>
          if locked s then None
          else Some (mkSystem (shared s) true (upd (pcs s) i (AtGate fn))
                              (sworld s) (started s) (panics s))
      | AtGate fn =>
          match gate (shared s) (sworld s) with
          | Reject e w' =>
              Some (mkSystem (shared s) (locked s)
                             (upd (pcs s) i (AtUnlock (Returned (Some e)))) w'
                             (started s) (panics s))
          | Proceed cb1 w1 =>
              Some (mkSystem cb1 (locked s) (upd (pcs s) i (AtInvoke fn)) w1
                             match state (shared s), state cb1 with
                             | OPEN, HALF_OPEN => O
                             | _, _ => started s
                             end
                             match state (shared s), state cb1 with
                             | OPEN, HALF_OPEN => O
                             | _, _ => panics s
                             end)
          end
      | AtInvoke fn =>
          Some (mkSystem (shared s) (locked s) (upd (pcs s) i (InFn fn))
                         (sworld s) (S (started s)) (panics s))
      | InFn fn =>
          match fn (sworld s) with
          | (Returned err, w2) =>
              Some (mkSystem (shared s) (locked s) (upd (pcs s) i (AtSettle err))
                             w2 (started s) (panics s))
          | (Panicked v, w2) =>
              Some (mkSystem (shared s) (locked s)
                             (upd (pcs s) i (AtUnlock (Panicked v)))
                             w2 (started s) (S (panics s)))
          end
      | AtSettle err =>
          let (cb2, r) := settle (shared s) err (sworld s) in
          Some (mkSystem cb2 (locked s) (upd (pcs s) i (AtUnlock (Returned r)))
                         (sworld s) (started s) (panics s))
      | AtUnlock r =>
          Some (mkSystem (shared s) false (upd (pcs s) i (Done r))
                         (sworld s) (started s) (panics s))
      | Done _ | Idle => None
      end
  end.

(** A schedule, run from a system; [None] when some action of it cannot
    fire. *)
Fixpoint fire_all (s : System) (sched : list Action) : option System :=
  match sched with
  | [] => Some s
  | a :: sched' =>
      match fire s a with
      | Some s' => fire_all s' sched'
      | None => None
      end
  end.

(** The goroutines [0 .. length fns - 1] are about to call [cb.Call] with
    the operations [fns]; nobody holds the mutex. *)
Definition spawn (cb : CircuitBreaker) (fns : list (Operation U)) (w : World U) : System :=
  mkSystem cb false
           (fun i => match nth_error fns i with
                     | Some fn => AtLock fn
                     | None => Idle
                     end)
           w O O.

(** The goroutine is between [Lock] and [Unlock]. *)
Definition holding (p : Pc) : bool :=
  match p with
  | AtGate _ | AtInvoke _ | InFn _ | AtSettle _ | AtUnlock _ => true
  | _ => false
  end.

(** The goroutine is past the gate and has not done the bookkeeping yet. *)
Definition probing (p : Pc) : bool :=
  match p with
  | AtInvoke _ | InFn _ | AtSettle _ => true
  | _ => false
  end.

(** The goroutine has not read or written the breaker in its current call,
    or is not in a call. *)
Definition outside (p : Pc) : bool :=
  match p with
  | Idle | AtLock _ | Done _ => true
  | _ => false
  end.

(** The goroutine is inside the wrapped operation. *)
Definition running (p : Pc) : bool :=
  match p with
  | InFn _ => true
  | _ => false
  end.

(** Goroutine [i] runs on its own until its call is over. *)
Fixpoint solo (fuel : nat) (i : nat) (s : System) : option System :=
  match pcs s i with
  | Done _ => Some s
  | _ =>
      match fuel with
      | O => None
      | S fuel' =>
          match fire s (Run i) with
          | Some s' => solo fuel' i s'
          | None => None
          end
      end
  end.

(** What the mutex maintains: only a holder is between [Lock] and [Unlock],
    and there is one holder at most. While the breaker is HALF_OPEN, either
    some goroutine is past the gate with its bookkeeping still to do, and
    the operations started in this HALF_OPEN period before the one it
    started, or is about to start, have all panicked; or no goroutine is
    there, an operation has panicked in this period, and so have all that
    were started in it. *)
Definition exclusive (s : System) : Prop :=
  (locked s = false -> forall i, holding (pcs s i) = false) /\
  (forall i j, holding (pcs s i) = true -> holding (pcs s j) = true -> i = j) /\
  (state (shared s) = HALF_OPEN ->
   (exists i, probing (pcs s i) = true /\
              started s = (panics s
                           + match pcs s i with AtInvoke _ => O | _ => 1 end)%nat)
   \/
   ((forall i, probing (pcs s i) = false) /\
    (1 <= panics s)%nat /\ started s = panics s)).

End Threads.

Arguments Pc U : clear implicits.
Arguments System U : clear implicits.
Arguments Action U : clear implicits.

(** ** Operations and worlds for the scenarios

    The world keeps a counter of the calls the operations received. *)

Module Demo.

Definition W : Type := World nat.

Definition w0 : W := mkWorld 1000 0%N 0%nat.

(** [time.Sleep(d)] in the caller. *)
Definition sleep (d : Duration) (w : W) : W :=
  mkWorld (clock w + d) (heap w) (user w).

(** An operation that takes 100ms and returns [fmt.Errorf(text)]; it counts
    the call. *)
Definition failing (text : string) : Operation nat := fun w =>
  let (e, w') := fmt_Errorf text (sleep (100 * Millisecond) w) in
  (Returned (Some e), mkWorld (clock w') (heap w') (S (user w'))).

(** An operation that takes 50ms and returns [nil]; it counts the call. *)
Definition healthy : Operation nat := fun w =>
  let w' := sleep (50 * Millisecond) w in
  (Returned None, mkWorld (clock w') (heap w') (S (user w'))).

(** An operation that takes 10ms and calls [panic(text)]; it counts the
    call. *)
Definition crashing (text : string) : Operation nat := fun w =>
  let w' := sleep (10 * Millisecond) w in
  (Panicked text, mkWorld (clock w') (heap w') (S (user w'))).

(** The operation [func() error { return inner.Call(fn) }]: a call through
    a second breaker, whose state is not kept in this world. *)
Definition through (inner : CircuitBreaker) (fn : Operation nat) : Operation nat :=
  fun w => let o := Call inner fn w in (ret o, world o).

Definition no_wait : W -> W := fun w => w.

(** The breakers and steps of the scenarios. *)
Definition fresh3 : CircuitBreaker := NewCircuitBreaker 3 (5 * Second).

(** A breaker that tripped at clock reading 1000. *)
Definition tripped : CircuitBreaker :=
  mkCircuitBreaker OPEN 3 (At 1000) 3 (5 * Second).

Definition fail_now : Step nat := (no_wait, failing "service unavailable").
Definition succeed_now : Step nat := (no_wait, healthy).
Definition fail_later : Step nat :=
  (sleep (5 * Second + Millisecond), failing "service still failing").
Definition succeed_later : Step nat := (sleep (5 * Second + Millisecond), healthy).
Definition crash_now : Step nat := (no_wait, crashing "boom").
Definition crash_later : Step nat :=
  (sleep (5 * Second + Millisecond), crashing "boom").

(** The world 5.001s after [w0]. *)
Definition w_late : W := sleep (5 * Second + Millisecond) w0.

(** Three goroutines call a tripped breaker after its timeout; goroutine 1
    gets the mutex, passes the gate and is inside the operation. *)
Definition three : System nat := spawn tripped [healthy; healthy; healthy] w_late.
Definition sched1 : list (Action nat) := [Run 1%nat; Run 1%nat; Run 1%nat].
Definition three_probing : System nat :=
  match fire_all three sched1 with
  | Some s => s
  | None => three
  end.

(** A breaker with threshold 3 on which two operations have failed. *)
Definition two_down : Session nat := run fresh3 w0 [fail_now; fail_now].

(** Two goroutines call a tripped breaker after its timeout. Goroutine 0
    runs its call to the end, and its operation panics; then goroutine 1
    runs its call up to the return of its operation. *)
Definition pair : System nat :=
  spawn tripped [crashing "boom"; healthy] w_late.
Definition sched2 : list (Action nat) :=
  [Run 0%nat; Run 0%nat; Run 0%nat; Run 0%nat; Run 0%nat;
   Run 1%nat; Run 1%nat; Run 1%nat; Run 1%nat].
Definition pair_after : System nat :=
  match fire_all pair sched2 with
  | Some s => s
  | None => pair
  end.

End Demo.

(** ** More about the breaker in use *)

(** The failure count of a breaker with threshold [th] that is between
    calls: it is never negative, never above the threshold (or above 1,
    when the threshold is not positive), below it while the breaker is
    CLOSED, and 0 while the breaker is HALF_OPEN. *)
Definition within (th : Z) (cb : CircuitBreaker) : Prop :=
  failureThreshold cb = th /\
  0 <= failureCount cb <= Z.max th 1 /\
  match state cb with
  | CLOSED => failureCount cb < Z.max th 1
  | OPEN => True
  | HALF_OPEN => failureCount cb = 0
  end.

Section MoreThreads.

Context {U : Type}.

(** The mutex is held by a goroutine that is between [Lock] and [Unlock]. *)
Definition held_by_someone (s : System U) : Prop :=
  locked s = true -> exists i, holding (pcs s i) = true.

(** The breaker goroutines share is one a history of calls, made one after
    the other on the breaker [cb0], arrives at: it is the breaker after that
    history while no goroutine is past the gate, and what the gate of a
    next call makes of it while one is. *)
Definition linear (cb0 : CircuitBreaker) (w0 : World U) (s : System U) : Prop :=
  exists script : list (Step U),
    ((forall j, probing (pcs s j) = false) ->
     shared s = current (run cb0 w0 script)) /\
    (forall j, probing (pcs s j) = true ->
     exists wg : World U,
       gate (current (run cb0 w0 script)) wg = Proceed (shared s) wg).

End MoreThreads.

(** ** The rest of patterns/circuit_breaker.go: the text of a state, the
    simulated services and the demonstrations *)

From Stdlib Require Import Ascii DecimalString.

(** The [int] a [CircuitState] is ([iota]). *)
Definition code (s : CircuitState) : Z :=
  match s with
  | CLOSED => 0
  | OPEN => 1
  | HALF_OPEN => 2
  end.

(** [(cs CircuitState) String()], on the [int]. *)
Definition CircuitState_String (cs : Z) : string :=
  if cs =? code CLOSED then "🟢 CLOSED"
  else if cs =? code OPEN then "🔴 OPEN"
  else if cs =? code HALF_OPEN then "🟡 HALF_OPEN"
  else "❓ UNKNOWN".

(** What the demonstrations see of the outside: what was printed (latest
    first), the delays the scheduler adds (nanoseconds, one for every time it
    is asked), and the answers of the random number generator to the
    question the code asks of it. *)
Record Console : Type := mkConsole {
  stdout : list string;
  delays : nat -> N;
  waited : nat;
  draws : nat -> bool;        (* whether rand.Float32() < 0.7, draw by draw *)
  drawn : nat
}.

Module Run.

Local Open Scope string_scope.

Definition W : Type := World Console.

Definition nl : string := String "010"%char EmptyString.

(** The verb [%d] on an [int]. *)
Definition itoa (z : Z) : string := NilZero.string_of_int (Z.to_int z).

(** Time passes: the scheduler adds its next delay. *)
Definition pass (w : W) : W :=
  let c := user w in
  mkWorld (clock w + Z.of_N (delays c (waited c))) (heap w)
          (mkConsole (stdout c) (delays c) (S (waited c)) (draws c) (drawn c)).

(** [time.Sleep(d)]: returns after [d] at the earliest; at once when [d] is
    not positive. *)
Definition time_Sleep (d : Duration) (w : W) : W :=
  pass (mkWorld (clock w + Z.max 0 d) (heap w) (user w)).

(** Writing [s] to standard output; it takes the time it takes. *)
Definition Print (s : string) (w : W) : W :=
  let c := user w in
  pass (mkWorld (clock w) (heap w)
                (mkConsole (s :: stdout c) (delays c) (waited c) (draws c) (drawn c))).

(** [fmt.Println(s)]. *)
Definition Println (s : string) (w : W) : W := Print (s ++ nl) w.

(** [rand.Float32() < 0.7]. *)
Definition rand_below_0_7 (w : W) : bool * W :=
  let c := user w in
  (draws c (drawn c),
   mkWorld (clock w) (heap w)
           (mkConsole (stdout c) (delays c) (waited c) (draws c) (S (drawn c)))).

(** [simulateHealthyService]. *)
Definition simulateHealthyService : Operation Console := fun w =>
  let w := time_Sleep (50 * Millisecond) w in
  (Returned None, w).

(** [simulateFailingService]. *)
Definition simulateFailingService : Operation Console := fun w =>
  let w := time_Sleep (100 * Millisecond) w in
  let (e, w) := fmt_Errorf "service unavailable" w in
  (Returned (Some e), w).

(** [simulateRecoveringService]. *)
Definition simulateRecoveringService : Operation Console := fun w =>
  let w := time_Sleep (75 * Millisecond) w in
  let (below, w) := rand_below_0_7 w in
  if below then (Returned None, w)
  else let (e, w) := fmt_Errorf "service still unstable" w in
       (Returned (Some e), w).

(** [func() error { return fmt.Errorf(text) }]. *)
Definition failing_with (text : string) : Operation Console := fun w =>
  let (e, w) := fmt_Errorf text w in
  (Returned (Some e), w).

(** The locals of a demonstration: the breaker and the counters
    [successful], [failed] and [blocked]. *)
Record Tally : Type := mkTally {
  cb_of : CircuitBreaker;
  successful : Z;
  failed_calls : Z;
  blocked : Z
}.

(** [err := cb.Call(fn)] on the breaker of the tally; the counters are not
    touched. The demonstrations recover no panic: when [Call] panics the
    demonstration is over, which is [None] here and in the functions
    below. *)
Definition call (fn : Operation Console) (t : Tally) (w : W)
  : option (option error * Tally * W) :=
  let o := Call (cb_of t) fn w in
  match ret o with
  | Returned err =>
      Some (err,
            mkTally (breaker o) (successful t) (failed_calls t) (blocked t),
            world o)
  | Panicked _ => None
  end.

Definition count_successful (t : Tally) : Tally :=
  mkTally (cb_of t) (wrap64 (successful t + 1)) (failed_calls t) (blocked t).

Definition count_failed (t : Tally) : Tally :=
  mkTally (cb_of t) (successful t) (wrap64 (failed_calls t + 1)) (blocked t).

Definition count_blocked (t : Tally) : Tally :=
  mkTally (cb_of t) (successful t) (failed_calls t) (wrap64 (blocked t + 1)).

Definition state_text (t : Tally) : string :=
  CircuitState_String (code (GetState (cb_of t))).

(** [for i := first; i <= last; i++ { body }]; a panic in the body ends the
    loop. *)
Definition for_each (first last : nat)
           (body : nat -> Tally * W -> option (Tally * W))
           (tw : Tally * W) : option (Tally * W) :=
  fold_left (fun acc i => match acc with
                          | Some x => body i x
                          | None => None
                          end)
            (seq first (S last - first)) (Some tw).

(** [runClosedStateDemo], the body of its loop. *)
Definition runClosedStateDemo_request (i : nat) (tw : Tally * W)
  : option (Tally * W) :=
  let (t, w) := tw in
  let w := Print ("Request " ++ itoa (Z.of_nat i) ++ ": ") w in
  match call (fun w => simulateHealthyService w) t w with
  | None => None
  | Some (err, t, w) =>
      let (t, w) :=
        match err with
        | Some e => (count_failed t, Print ("❌ Failed - " ++ Error e ++ nl) w)
        | None =>
            (count_successful t,
             Print ("✅ Success (State: " ++ state_text t ++ ")" ++ nl) w)
        end in
      Some (t, time_Sleep (200 * Millisecond) w)
  end.

(** [runClosedStateDemo]. The value is the locals with the world; Go
    discards the locals when the function returns. *)
Definition runClosedStateDemo (w : W) : option (Tally * W) :=
  let w := Println "🟢 === CLOSED State Demo ===" w in
  let w := Println "Circuit is closed - all requests pass through normally" w in
  let w := Println "" w in
  let t := mkTally (NewCircuitBreaker 3 (5 * Second)) 0 0 0 in
  match for_each 1 10 runClosedStateDemo_request (t, w) with
  | None => None
  | Some (t, w) =>
      let w := Print (nl ++ "📊 Results: " ++ itoa (successful t) ++ " successful, "
                         ++ itoa (failed_calls t) ++ " failed" ++ nl) w in
      let w := Print ("🔧 Circuit remained CLOSED - all requests processed" ++ nl) w in
      Some (t, w)
  end.

(** The loops that trip the breaker: [cb.Call] with an operation that
    returns [fmt.Errorf(text)], three times, the result dropped. *)
Definition trip_request (text : string) (i : nat) (tw : Tally * W)
  : option (Tally * W) :=
  let (t, w) := tw in
  match call (failing_with text) t w with
  | None => None
  | Some (_, t, w) => Some (t, w)
  end.

(** [runOpenStateDemo], the body of its second loop. *)
Definition runOpenStateDemo_request (i : nat) (tw : Tally * W)
  : option (Tally * W) :=
  let (t, w) := tw in
  let w := Print ("Request " ++ itoa (Z.of_nat i) ++ ": ") w in
  match call (fun w => simulateHealthyService w) t w with
  | None => None
  | Some (err, t, w) =>
      let (t, w) :=
        match err with
        | Some e =>
            if String.eqb (Error e) "circuit breaker is OPEN"
            then (count_blocked t,
                  Print ("🛑 BLOCKED by circuit breaker (State: " ++ state_text t
                           ++ ")" ++ nl) w)
            else (count_failed t, Print ("❌ Failed - " ++ Error e ++ nl) w)
        | None =>
            (count_successful t,
             Print ("✅ Success (State: " ++ state_text t ++ ")" ++ nl) w)
        end in
      Some (t, time_Sleep (200 * Millisecond) w)
  end.

(** [runOpenStateDemo]. *)
Definition runOpenStateDemo (w : W) : option (Tally * W) :=
  let w := Println "🔴 === OPEN State Demo ===" w in
  let w := Println "Circuit is open - requests are blocked to protect failing service" w in
  let w := Println "" w in
  let t := mkTally (NewCircuitBreaker 3 (5 * Second)) 0 0 0 in
  let w := Println "Triggering circuit to open with failures..." w in
  match for_each 1 3 (trip_request "service unavailable") (t, w) with
  | None => None
  | Some (t, w) =>
      match for_each 1 8 runOpenStateDemo_request (t, w) with
      | None => None
      | Some (t, w) =>
          let w := Print (nl ++ "📊 Results: " ++ itoa (successful t) ++ " successful, "
                             ++ itoa (failed_calls t) ++ " failed, "
                             ++ itoa (blocked t) ++ " blocked" ++ nl) w in
          let w := Print ("🛡️  Circuit breaker protected the failing service from "
                            ++ itoa (blocked t) ++ " requests" ++ nl) w in
          Some (t, w)
      end
  end.






(** [runFullLifecycleDemo], the body of its first loop. *)
Definition runFullLifecycleDemo_healthy (i : nat) (tw : Tally * W)
  : option (Tally * W) :=
  let (t, w) := tw in
  let w := Print ("Request " ++ itoa (Z.of_nat i) ++ ": ") w in
  match call simulateHealthyService t w with
  | None => None
  | Some (err, t, w) =>
      let (t, w) :=
        match err with
        | Some _ => (count_failed t,
                     Print ("❌ Failed (State: " ++ state_text t ++ ")" ++ nl) w)
        | None => (count_successful t,
                   Print ("✅ Success (State: " ++ state_text t ++ ")" ++ nl) w)
        end in
      Some (t, time_Sleep (300 * Millisecond) w)
  end.

(** [runFullLifecycleDemo], the body of its second and third loops, which
    differ in the service, in the text for a success and in the sleep. *)
Definition runFullLifecycleDemo_request (fn : Operation Console)
           (success : string) (pause : Duration) (i : nat) (tw : Tally * W)
  : option (Tally * W) :=
  let (t, w) := tw in
  let w := Print ("Request " ++ itoa (Z.of_nat i) ++ ": ") w in
  match call fn t w with
  | None => None
  | Some (err, t, w) =>
      let (t, w) :=
        match err with
        | Some e =>
            if String.eqb (Error e) "circuit breaker is OPEN"
            then (count_blocked t,
                  Print ("🛑 BLOCKED (State: " ++ state_text t ++ ")" ++ nl) w)
            else (count_failed t,
                  Print ("❌ Failed (State: " ++ state_text t ++ ")" ++ nl) w)
        | None => (count_successful t,
                   Print (success ++ " (State: " ++ state_text t ++ ")" ++ nl) w)
        end in
      Some (t, time_Sleep pause w)
  end.

(** [runFullLifecycleDemo]. *)
Definition runFullLifecycleDemo (w : W) : option (Tally * W) :=
  let w := Println "🔄 === Full Circuit Breaker Lifecycle ===" w in
  let w := Println "Watch circuit breaker automatically handle service degradation and recovery" w in
  let w := Println "" w in
  let t := mkTally (NewCircuitBreaker 3 (3 * Second)) 0 0 0 in
  let w := Println "📡 Phase 1: Healthy service..." w in
  match for_each 1 5 runFullLifecycleDemo_healthy (t, w) with
  | None => None
  | Some (t, w) =>
      let w := Println (nl ++ "💥 Phase 2: Service degrading...") w in
      match for_each 6 10
              (runFullLifecycleDemo_request simulateFailingService "✅ Success"
                                            (300 * Millisecond)) (t, w) with
      | None => None
      | Some (t, w) =>
          let w := Println (nl ++ "⏰ Phase 3: Waiting for recovery window...") w in
          let w := time_Sleep (3100 * Millisecond) w in
          match for_each 11 15
                  (runFullLifecycleDemo_request simulateRecoveringService
                                                "✅ Success!"
                                                (400 * Millisecond)) (t, w) with
          | None => None
          | Some (t, w) =>
              let w := Print (nl ++ "📊 Final Results: " ++ itoa (successful t)
                                 ++ " successful, "
                                 ++ itoa (failed_calls t) ++ " failed, "
                                 ++ itoa (blocked t) ++ " blocked" ++ nl) w in
              let w := Print ("🛡️  Circuit breaker prevented " ++ itoa (blocked t)
                                ++ " requests to failing service" ++ nl) w in
              let w := Print ("⚡ Automatic recovery detection enabled graceful service restoration"
                                ++ nl) w in
              Some (t, w)
          end
      end
  end.

(** The breaker the first two demonstrations make. *)
Definition new5 : CircuitBreaker := NewCircuitBreaker 3 (5 * Second).

(** What holds of the tally of [runOpenStateDemo] after [k] requests of its
    second loop: no request failed, the requests are all counted as blocked
    or successful, and none was successful while the breaker is OPEN. *)
Definition open_tally (k : Z) (t : Tally) : Prop :=
  failed_calls t = 0 /\
  0 <= successful t /\ 0 <= blocked t /\
  successful t + blocked t = k /\
  (state (cb_of t) = OPEN /\ successful t = 0 \/
   state (cb_of t) = CLOSED /\ 0 < successful t).

(** [runOpenStateDemo] before request [i] of its second loop, when the
    scheduler is quick: the breaker is as the third failure left it, at
    time [lf]; the requests so far were all blocked; and no more than 650ms
    passed for each of them. *)
Definition all_blocked (lf : Z) (i : nat) (tw : Tally * W) : Prop :=
  cb_of (fst tw) = mkCircuitBreaker OPEN 3 (At lf) 3 (5 * Second) /\
  successful (fst tw) = 0 /\ failed_calls (fst tw) = 0 /\
  blocked (fst tw) = Z.of_nat i - 1 /\
  lf <= clock (snd tw) <= lf + (Z.of_nat i - 1) * (650 * Millisecond) /\
  forall k, Z.of_N (delays (user (snd tw)) k) <= 150 * Millisecond.


(** The breaker [runFullLifecycleDemo] makes. *)
Definition new3 : CircuitBreaker := NewCircuitBreaker 3 (3 * Second).

(** [runFullLifecycleDemo] before request [i] of its second loop (requests
    6 to 10, to the failing service): the five requests of the first loop
    were successful; the requests 6, 7 and 8 fail and the third of them
    trips the breaker; from then on the breaker is OPEN and a request is
    blocked or fails. *)
Definition degrading (i : nat) (t : Tally) : Prop :=
  successful t = 5 /\ 0 <= blocked t /\
  failed_calls t + blocked t = Z.of_nat i - 6 /\
  failureThreshold (cb_of t) = 3 /\
  ((i <= 8)%nat /\ state (cb_of t) = CLOSED /\
   failureCount (cb_of t) = Z.of_nat i - 6 /\ blocked t = 0
   \/
   (9 <= i)%nat /\ state (cb_of t) = OPEN /\ 3 <= failed_calls t).

(** [runFullLifecycleDemo] before request [i] of its third loop. *)
Definition recovering (i : nat) (t : Tally) : Prop :=
  5 <= successful t /\ 3 <= failed_calls t /\ 0 <= blocked t /\
  successful t + failed_calls t + blocked t = Z.of_nat i - 1 /\
  (state (cb_of t) = CLOSED \/ state (cb_of t) = OPEN).

(** The scheduler never adds more than [D] nanoseconds. *)
Definition calm (D : Z) (w : W) : Prop :=
  forall k, Z.of_N (delays (user w) k) <= D.

(** A console on which nothing takes longer than asked, and a recovering
    service whose every draw is below 0.7. *)
Definition quiet : W :=
  mkWorld 0 0%N (mkConsole [] (fun _ => 0%N) 0 (fun _ => true) 0).

End Run.

(** Further scenarios. *)
Module MoreDemo.

Import Demo.

(** A breaker one failure short of tripping. *)
Definition strained : CircuitBreaker :=
  mkCircuitBreaker CLOSED 2 (At 900) 3 (5 * Second).

(** Two goroutines call a new breaker, the first with a failing operation;
    the first call runs to its end, then the second. *)
Definition two : System nat :=
  spawn fresh3 [failing "service unavailable"; healthy] w0.
Definition one_then_other : list (Action nat) :=
  [Run 0%nat; Run 0%nat; Run 0%nat; Run 0%nat; Run 0%nat; Run 0%nat;
   Run 1%nat; Run 1%nat; Run 1%nat; Run 1%nat; Run 1%nat; Run 1%nat].
Definition two_done : System nat :=
  match fire_all two one_then_other with
  | Some s => s
  | None => two
  end.

End MoreDemo.

(** * Properties *)

(** ** The parts of a call *)

Section CallFacts.

Context {U : Type}.
Implicit Types (cb : CircuitBreaker) (w : World U) (fn : Operation U).

Lemma gate_world cb w cb1 w1 :
  gate cb w = Proceed cb1 w1 -> w1 = w.
Proof.
  unfold gate. destruct (state cb); try congruence.
  destruct (Since w (lastFailure cb) >? timeout cb); simpl; congruence.
Qed.

Lemma gate_not_open cb w :
  state cb <> OPEN -> gate cb w = Proceed cb w.
Proof.
  unfold gate. destruct (state cb); congruence.
Qed.

Lemma gate_open_early cb w :
  state cb = OPEN -> Since w (lastFailure cb) <= timeout cb ->
  gate cb w = Reject (mkError errorString_type (heap w) open_text)
                     (mkWorld (clock w) (N.succ (heap w)) (user w)).
Proof.
  intros Hs Ht. unfold gate. rewrite Hs.
  destruct (Z.gtb_spec (Since w (lastFailure cb)) (timeout cb)); [lia|].
  reflexivity.
Qed.

Lemma gate_open_expired cb w :
  state cb = OPEN -> Since w (lastFailure cb) > timeout cb ->
  gate cb w = Proceed (set_failureCount 0 (set_state HALF_OPEN cb)) w.
Proof.
  intros Hs Ht. unfold gate. rewrite Hs.
  destruct (Z.gtb_spec (Since w (lastFailure cb)) (timeout cb)); [|lia].
  reflexivity.
Qed.

(** The state a call passes to the operation is the one it found, except
    that OPEN has become HALF_OPEN. *)
Lemma gate_state cb w cb1 w1 :
  gate cb w = Proceed cb1 w1 ->
  state cb1 = match state cb with OPEN => HALF_OPEN | s => s end /\
  failureThreshold cb1 = failureThreshold cb /\
  timeout cb1 = timeout cb /\
  lastFailure cb1 = lastFailure cb.
Proof.
  unfold gate. destruct (state cb) eqn:Hs.
  - intros [= <- _]. now rewrite Hs.
  - destruct (Since w (lastFailure cb) >? timeout cb); simpl; [|discriminate].
    intros [= <- _]. now simpl.
  - intros [= <- _]. now rewrite Hs.
Qed.

Lemma settle_ret cb err w : snd (settle cb err w) = err.
Proof. now destruct err. Qed.

(** A call that passes the gate: the bookkeeping on what the operation
    returned, or, when the operation panicked, the breaker as the gate left
    it. *)
Lemma Call_proceed cb fn w cb1 w1 :
  gate cb w = Proceed cb1 w1 ->
  Call cb fn w =
  match fst (fn w) with
  | Returned err =>
      mkOutcome (Returned err) (fst (settle cb1 err (snd (fn w)))) (snd (fn w))
  | Panicked v => mkOutcome (Panicked v) cb1 (snd (fn w))
  end.
Proof.
  intros Hg. pose proof (gate_world _ _ Hg) as ->.
  unfold Call. rewrite Hg. destruct (fn w) as [[err|v] w2]; simpl; trivial.
  pose proof (settle_ret cb1 err w2) as Hr.
  destruct (settle cb1 err w2) as [cb2 r]. simpl in *. now subst r.
Qed.

Lemma Call_returned cb fn w cb1 w1 err :
  gate cb w = Proceed cb1 w1 -> fst (fn w) = Returned err ->
  Call cb fn w =
  mkOutcome (Returned err) (fst (settle cb1 err (snd (fn w)))) (snd (fn w)).
Proof. intros Hg Hr. now rewrite (Call_proceed _ fn _ Hg), Hr. Qed.

Lemma Call_panicked cb fn w cb1 w1 v :
  gate cb w = Proceed cb1 w1 -> fst (fn w) = Panicked v ->
  Call cb fn w = mkOutcome (Panicked v) cb1 (snd (fn w)).
Proof. intros Hg Hr. now rewrite (Call_proceed _ fn _ Hg), Hr. Qed.

Lemma settle_config cb err w :
  failureThreshold (fst (settle cb err w)) = failureThreshold cb /\
  timeout (fst (settle cb err w)) = timeout cb.
Proof.
  destruct err; simpl.
  - destruct (state cb); simpl; try easy.
    + now destruct (_ >=? _).
    + now destruct (_ >=? _).
  - now destruct (state cb).
Qed.

(** The state after the bookkeeping is never HALF_OPEN. *)
Lemma settle_resolved cb err w :
  state (fst (settle cb err w)) <> HALF_OPEN.
Proof.
  destruct err; simpl.
  - destruct (state cb) eqn:Hs; simpl; try discriminate;
      destruct (_ >=? _); simpl; rewrite ?Hs; discriminate.
  - destruct (state cb) eqn:Hs; simpl; rewrite ?Hs; discriminate.
Qed.

(** The bookkeeping for an operation that was run from HALF_OPEN. *)
Lemma settle_half_open cb err w :
  state cb = HALF_OPEN ->
  match err with
  | Some _ =>
      state (fst (settle cb err w)) = OPEN /\
      lastFailure (fst (settle cb err w)) = Now w
  | None =>
      state (fst (settle cb err w)) = CLOSED /\
      failureCount (fst (settle cb err w)) = 0
  end.
Proof.
  intros Hh. destruct err; simpl; rewrite Hh; simpl; auto.
Qed.

Lemma invokes_proceed cb w :
  invokes cb w = true <-> exists cb1, gate cb w = Proceed cb1 w.
Proof.
  unfold invokes. split.
  - destruct (gate cb w) eqn:Hg; [discriminate|]. intros _.
    pose proof (gate_world _ _ Hg) as ->. now exists cb0.
  - now intros [cb1 ->].
Qed.

Lemma Call_ret_invoked cb fn w :
  invokes cb w = true -> ret (Call cb fn w) = fst (fn w).
Proof.
  intros Hi. apply invokes_proceed in Hi as [cb1 Hg].
  rewrite (Call_proceed _ fn _ Hg). now destruct (fst (fn w)).
Qed.

Lemma wrap64_small z : in_int64 z -> wrap64 z = z.
Proof.
  unfold in_int64, wrap64, min_int64, max_int64. intros H.
  rewrite Z.mod_small; lia.
Qed.

End CallFacts.

(** ** One call *)

Section OneCall.

Context {U : Type}.
Implicit Types (cb : CircuitBreaker) (w : World U) (fn : Operation U).

(** C2. A call that finds the breaker OPEN while [time.Since(lastFailure)]
    is not greater than the timeout returns the rejection error (a new
    [errorString] with the text "circuit breaker is OPEN"), does not run the
    operation (the outcome is the same whatever the operation is, and the
    world changes by the allocation of the error only), and leaves the
    breaker, hence its state, failure count and last failure time, as it
    was. *)
Theorem open_call_rejected cb fn w :
  state cb = OPEN ->
  Since w (lastFailure cb) <= timeout cb ->
  Call cb fn w =
    mkOutcome (Returned (Some (mkError errorString_type (heap w) open_text))) cb
              (mkWorld (clock w) (N.succ (heap w)) (user w)) /\
  invokes cb w = false /\
  (forall fn', Call cb fn' w = Call cb fn w) /\
  (exists e, ret (Call cb fn w) = Returned (Some e) /\
             is_open_rejection e = true) /\
  state (breaker (Call cb fn w)) = state cb /\
  failureCount (breaker (Call cb fn w)) = failureCount cb /\
  lastFailure (breaker (Call cb fn w)) = lastFailure cb.
Proof.
  intros Hs Ht.
  assert (HC : forall f, Call cb f w =
    mkOutcome (Returned (Some (mkError errorString_type (heap w) open_text))) cb
              (mkWorld (clock w) (N.succ (heap w)) (user w))).
  { intros f. unfold Call. now rewrite (gate_open_early _ _ Hs Ht). }
  repeat split.
  - apply HC.
  - unfold invokes. now rewrite (gate_open_early _ _ Hs Ht).
  - intros fn'. now rewrite !HC.
  - rewrite HC. simpl. eexists. split; [reflexivity|reflexivity].
  - now rewrite HC.
  - now rewrite HC.
  - now rewrite HC.
Qed.

(** C3. A call that finds the breaker OPEN while [time.Since(lastFailure)]
    is greater than the timeout sets the state to HALF_OPEN and the failure
    count to 0, runs the operation, and treats its result as any result of
    the operation is treated: the bookkeeping is done on it from the
    HALF_OPEN breaker, the call returns it, and the state afterwards is
    CLOSED when it is [nil] and OPEN when it is an error. (When the
    operation panics there is no result and no bookkeeping: the panic goes
    through, and the breaker stays as the call set it.) *)
Theorem expired_open_call_probes cb fn w :
  state cb = OPEN ->
  Since w (lastFailure cb) > timeout cb ->
  let probe := set_failureCount 0 (set_state HALF_OPEN cb) in
  gate cb w = Proceed probe w /\
  state probe = HALF_OPEN /\
  failureCount probe = 0 /\
  invokes cb w = true /\
  breaker (Call cb fn w) =
    match fst (fn w) with
    | Returned err => fst (settle probe err (snd (fn w)))
    | Panicked _ => probe
    end /\
  ret (Call cb fn w) = fst (fn w) /\
  world (Call cb fn w) = snd (fn w) /\
  state (breaker (Call cb fn w)) =
    match fst (fn w) with
    | Returned (Some _) => OPEN
    | Returned None => CLOSED
    | Panicked _ => HALF_OPEN
    end.
Proof.
  intros Hs Ht probe.
  pose proof (gate_open_expired _ _ Hs Ht) as Hg. fold probe in Hg.
  rewrite (Call_proceed _ fn _ Hg).
  repeat split; trivial.
  - unfold invokes. now rewrite Hg.
  - now destruct (fst (fn w)).
  - now destruct (fst (fn w)).
  - now destruct (fst (fn w)).
  - now destruct (fst (fn w)) as [[e|]|v].
Qed.

(** C4. A call that runs the operation from the HALF_OPEN state: when the
    operation returns an error the state becomes OPEN and the last failure
    time is the reading [time.Now()] takes after the operation, whatever the
    failure count and the threshold are; when it returns [nil] the state
    becomes CLOSED and the failure count is 0. (When the operation panics
    it has neither failed nor succeeded in this sense: the call lets the
    panic through and the breaker stays HALF_OPEN.) *)
Theorem half_open_probe_resolves cb fn w cb1 w1 :
  gate cb w = Proceed cb1 w1 ->
  state cb1 = HALF_OPEN ->
  match fst (fn w) with
  | Returned (Some e) =>
      ret (Call cb fn w) = Returned (Some e) /\
      state (breaker (Call cb fn w)) = OPEN /\
      lastFailure (breaker (Call cb fn w)) = Now (snd (fn w)) /\
      Now (world (Call cb fn w)) = Now (snd (fn w))
  | Returned None =>
      ret (Call cb fn w) = Returned None /\
      state (breaker (Call cb fn w)) = CLOSED /\
      failureCount (breaker (Call cb fn w)) = 0
  | Panicked v =>
      ret (Call cb fn w) = Panicked v /\
      breaker (Call cb fn w) = cb1
  end.
Proof.
  intros Hg Hh. rewrite (Call_proceed _ fn _ Hg).
  destruct (fst (fn w)) as [err|v]; [|now split].
  pose proof (settle_half_open cb1 err (snd (fn w)) Hh) as Hp.
  destruct err as [e|]; simpl ret; simpl breaker; simpl world; intuition.
Qed.

(** Whatever the state in which the operation was run, a call whose
    operation returns [nil] leaves the failure count 0. *)
Lemma success_resets_count cb fn w :
  invokes cb w = true ->
  fst (fn w) = Returned None ->
  ret (Call cb fn w) = Returned None /\
  failureCount (breaker (Call cb fn w)) = 0.
Proof.
  intros Hi Hn. apply invokes_proceed in Hi as [cb1 Hg].
  rewrite (Call_returned _ fn _ Hg Hn). simpl.
  now split.
Qed.

(** C6. A call that runs the operation returns what the operation returned:
    the very error value (type, identity and text) when it is an error,
    [nil] when it is [nil]. (And it ends as the operation ended: a panic of
    the operation is the panic of the call.) *)
Theorem operation_result_passes_through cb fn w :
  invokes cb w = true ->
  ret (Call cb fn w) = fst (fn w) /\
  (forall e, fst (fn w) = Returned (Some e) ->
             ret (Call cb fn w) = Returned (Some e)) /\
  (fst (fn w) = Returned None -> ret (Call cb fn w) = Returned None).
Proof.
  intros Hi. rewrite (Call_ret_invoked cb fn w Hi).
  repeat split; auto.
Qed.

(** A call that does not run the operation is a rejection. *)
Lemma not_invoked_rejected cb fn w :
  invokes cb w = false ->
  ret (Call cb fn w)
  = Returned (Some (mkError errorString_type (heap w) open_text)) /\
  breaker (Call cb fn w) = cb.
Proof.
  unfold invokes, Call, gate.
  destruct (state cb); try discriminate.
  destruct (Since w (lastFailure cb) >? timeout cb); [discriminate|].
  simpl. auto.
Qed.

(** No call returns with the breaker HALF_OPEN. *)
Lemma Call_resolved cb fn w r :
  ret (Call cb fn w) = Returned r ->
  state (breaker (Call cb fn w)) = CLOSED \/ state (breaker (Call cb fn w)) = OPEN.
Proof.
  intros Hret.
  assert (H : state (breaker (Call cb fn w)) <> HALF_OPEN
              \/ state cb = OPEN /\ breaker (Call cb fn w) = cb).
  { destruct (invokes cb w) eqn:Hi.
    - left. apply invokes_proceed in Hi as [cb1 Hg].
      rewrite (Call_proceed _ fn _ Hg) in *.
      destruct (fst (fn w)) as [err|v]; [|discriminate].
      simpl. apply settle_resolved.
    - right. split; [|now apply not_invoked_rejected].
      unfold invokes, gate in Hi. destruct (state cb); try discriminate.
      reflexivity. }
  destruct H as [H|[H1 H2]].
  - destruct (state (breaker (Call cb fn w))); auto. now destruct H.
  - rewrite H2. auto.
Qed.

(** A call whose operation panics leaves the breaker as the gate left it:
    the state it found, but HALF_OPEN with failure count 0 when it found
    OPEN (with the timeout expired, or the operation would not have run). *)
Lemma Call_panic cb fn w v :
  ret (Call cb fn w) = Panicked v ->
  invokes cb w = true /\ fst (fn w) = Panicked v /\
  gate cb w = Proceed (breaker (Call cb fn w)) w /\
  breaker (Call cb fn w) =
    match state cb with
    | OPEN => set_failureCount 0 (set_state HALF_OPEN cb)
    | _ => cb
    end.
Proof.
  intros Hret. destruct (invokes cb w) eqn:Hi.
  - pose proof (Call_ret_invoked cb fn w Hi) as Hr. rewrite Hret in Hr.
    apply invokes_proceed in Hi as [cb1 Hg].
    rewrite (Call_panicked _ fn _ Hg (eq_sym Hr)). simpl.
    repeat split; auto.
    revert Hg. unfold gate. destruct (state cb); try congruence.
    destruct (Since w (lastFailure cb) >? timeout cb); simpl; congruence.
  - destruct (not_invoked_rejected _ fn _ Hi) as [Hr _]. congruence.
Qed.

End OneCall.

(** ** Histories *)

Section Histories.

Context {U : Type}.
Implicit Types (cb : CircuitBreaker) (w : World U) (fn : Operation U).
Implicit Types (s : Session U) (stp : Step U).

Lemma run_snoc cb w script stp :
  run cb w (script ++ [stp]) = exec1 (run cb w script) stp.
Proof. unfold run. now rewrite fold_left_app. Qed.

(** A call that finds the breaker CLOSED, with a failure count below a
    threshold that an [int] can hold. *)
Lemma closed_call cb fn w :
  state cb = CLOSED ->
  0 <= failureCount cb < failureThreshold cb ->
  failureThreshold cb <= max_int64 ->
  invokes cb w = true /\
  ret (Call cb fn w) = fst (fn w) /\
  failureThreshold (breaker (Call cb fn w)) = failureThreshold cb /\
  match fst (fn w) with
  | Returned (Some _) =>
      failureCount (breaker (Call cb fn w)) = failureCount cb + 1 /\
      state (breaker (Call cb fn w)) =
        (if failureCount cb + 1 >=? failureThreshold cb then OPEN else CLOSED)
  | Returned None =>
      failureCount (breaker (Call cb fn w)) = 0 /\
      state (breaker (Call cb fn w)) = CLOSED
  | Panicked _ => breaker (Call cb fn w) = cb
  end.
Proof.
  intros Hs Hc Hm.
  assert (Hg : gate cb w = Proceed cb w) by (apply gate_not_open; congruence).
  rewrite (Call_proceed _ fn _ Hg).
  split; [unfold invokes; now rewrite Hg|].
  destruct (fst (fn w)) as [err|v]; simpl; [|auto].
  split; [reflexivity|]. split; [apply settle_config|].
  destruct err as [e|]; simpl; rewrite Hs; simpl.
  - rewrite wrap64_small by (unfold in_int64, min_int64, max_int64 in *; lia).
    destruct (failureCount cb + 1 >=? failureThreshold cb); simpl; auto.
  - auto.
Qed.

(** A call that finds the breaker OPEN or HALF_OPEN: it leaves it CLOSED
    only when it ran the operation and the operation returned [nil], and
    the failure count is then 0. *)
Lemma reclosed_call cb fn w :
  state cb <> CLOSED ->
  failureThreshold (breaker (Call cb fn w)) = failureThreshold cb /\
  (state (breaker (Call cb fn w)) = CLOSED ->
   invokes cb w = true /\ ret (Call cb fn w) = Returned None /\
   failureCount (breaker (Call cb fn w)) = 0).
Proof.
  intros Hs. destruct (invokes cb w) eqn:Hi.
  - pose proof Hi as Hi'. apply invokes_proceed in Hi' as [cb1 Hg].
    destruct (gate_state _ _ Hg) as (Hs1 & Ht1 & _).
    assert (Hh : state cb1 = HALF_OPEN)
      by (rewrite Hs1; destruct (state cb); congruence).
    rewrite (Call_proceed _ fn _ Hg).
    destruct (fst (fn w)) as [err|v]; simpl.
    + pose proof (settle_half_open cb1 err (snd (fn w)) Hh) as Hp.
      destruct (settle_config cb1 err (snd (fn w))) as [Hc _].
      split; [congruence|].
      destruct err as [e|]; destruct Hp as [Hp1 Hp2]; rewrite Hp1;
        [discriminate|auto].
    + split; [assumption|]. rewrite Hh. discriminate.
  - destruct (not_invoked_rejected _ fn _ Hi) as [_ Hb].
    rewrite Hb. split; [reflexivity|]. intros Hc. now destruct Hs.
Qed.

Lemma counted_start th t w :
  0 < th -> counted th (start (NewCircuitBreaker th t) w).
Proof. intros H. split; simpl; [reflexivity|]. split; [reflexivity|lia]. Qed.

Lemma streak_cons (e : Entry) l :
  streak (e :: l) =
  match verdict e with
  | Failure => S (streak l)
  | Panic => streak l
  | _ => O
  end.
Proof. reflexivity. Qed.

Lemma exec1_log s stp :
  log (exec1 s stp) =
  mkEntry (state (current s)) (invokes (current s) (fst stp (around s)))
          (ret (Call (current s) (snd stp) (fst stp (around s)))) :: log s.
Proof. reflexivity. Qed.

Lemma exec1_current s stp :
  current (exec1 s stp) = breaker (Call (current s) (snd stp) (fst stp (around s))).
Proof. reflexivity. Qed.

Lemma verdict_entry st (i : bool) r :
  verdict (mkEntry st i r) =
  if i then match r with
            | Returned (Some _) => Failure
            | Returned None => Success
            | Panicked _ => Panic
            end
  else Rejection.
Proof. reflexivity. Qed.

Lemma counted_exec1 th s stp :
  0 < th -> th <= max_int64 ->
  counted th s -> counted th (exec1 s stp).
Proof.
  intros Hpos Hmax [Hth Hst]. unfold counted.
  rewrite exec1_log, exec1_current, streak_cons, verdict_entry.
  destruct stp as [env fn]. simpl fst; simpl snd. set (w := env (around s)).
  destruct (state (current s)) eqn:Hs.
  - (* CLOSED *)
    destruct Hst as [Hc Hlt].
    destruct (closed_call (current s) fn w Hs) as (Hi & Hr & Ht & Hres);
      [lia|lia|].
    split; [congruence|].
    rewrite Hi, Hr.
    destruct (fst (fn w)) as [[e|]|v].
    + destruct Hres as [Hc' Hs']; rewrite Hs'.
      destruct (Z.geb_spec (failureCount (current s) + 1) (failureThreshold (current s)));
        [exact I|].
      split; lia.
    + destruct Hres as [Hc' Hs']; rewrite Hs'. simpl. split; lia.
    + rewrite Hres, Hs. now split.
  - (* OPEN *)
    destruct (reclosed_call (current s) fn w) as [Ht Hre]; [congruence|].
    split; [congruence|].
    destruct (state (breaker (Call (current s) fn w))) eqn:Hs'; trivial.
    destruct (Hre eq_refl) as (-> & -> & ->). simpl. split; lia.
  - (* HALF_OPEN *)
    destruct (reclosed_call (current s) fn w) as [Ht Hre]; [congruence|].
    split; [congruence|].
    destruct (state (breaker (Call (current s) fn w))) eqn:Hs'; trivial.
    destruct (Hre eq_refl) as (-> & -> & ->). simpl. split; lia.
Qed.

Lemma counted_run th t w script :
  0 < th -> th <= max_int64 ->
  counted th (run (NewCircuitBreaker th t) w script).
Proof.
  intros Hpos Hmax. induction script as [|stp script IH] using rev_ind.
  - now apply counted_start.
  - rewrite run_snoc. now apply counted_exec1.
Qed.

(** C1. Take a breaker made with a positive threshold (one that fits an
    [int]) and any history of calls on it after which it is CLOSED. The
    consecutive failures behind it are then fewer than the threshold, and
    the failure count is their number. The next call leaves the breaker OPEN
    exactly when it brings the consecutive failures to the threshold, and
    CLOSED exactly when they are still fewer: the breaker does not trip
    earlier and does not trip later. *)
Theorem trips_exactly_at_threshold th t w script stp :
  0 < th -> th <= max_int64 ->
  state (current (run (NewCircuitBreaker th t) w script)) = CLOSED ->
  let s := run (NewCircuitBreaker th t) w script in
  let s' := exec1 s stp in
  Z.of_nat (streak (log s)) < th /\
  failureCount (current s) = Z.of_nat (streak (log s)) /\
  (state (current s') = OPEN <-> Z.of_nat (streak (log s')) = th) /\
  (state (current s') = CLOSED <-> Z.of_nat (streak (log s')) < th).
Proof.
  intros Hpos Hmax Hs s s'.
  pose proof (counted_run t w script Hpos Hmax) as [Hth Hc]. fold s in Hth, Hc, Hs.
  rewrite Hs in Hc. destruct Hc as [Hc Hlt].
  split; [assumption|]. split; [assumption|].
  subst s'. rewrite exec1_log, exec1_current, streak_cons, verdict_entry.
  destruct stp as [env fn]. simpl fst; simpl snd.
  set (w' := env (around s)).
  destruct (closed_call (current s) fn w' Hs) as (Hi & Hr & Ht & Hres);
    [lia|lia|].
  rewrite Hi, Hr.
  destruct (fst (fn w')) as [[e|]|v].
  - destruct Hres as [Hc' Hs']; rewrite Hs'.
    destruct (Z.geb_spec (failureCount (current s) + 1) (failureThreshold (current s))).
    + split; split; intros; try discriminate; try lia. reflexivity.
    + split; split; intros; try discriminate; try lia. reflexivity.
  - destruct Hres as [Hc' Hs']; rewrite Hs'.
    split; split; intros; try discriminate; try (simpl in *; lia). reflexivity.
  - rewrite Hres, Hs.
    split; split; intros; try discriminate; try lia. reflexivity.
Qed.

Lemma run_length cb w script :
  length (log (run cb w script)) = length script.
Proof.
  induction script as [|stp script IH] using rev_ind; [reflexivity|].
  rewrite run_snoc, exec1_log, length_app. simpl. lia.
Qed.

(** A call that finds the breaker CLOSED, read off its verdict. *)
Lemma closed_call_verdict cb fn w :
  state cb = CLOSED ->
  0 <= failureCount cb < failureThreshold cb ->
  failureThreshold cb <= max_int64 ->
  failureThreshold (breaker (Call cb fn w)) = failureThreshold cb /\
  match verdict (mkEntry (state cb) (invokes cb w) (ret (Call cb fn w))) with
  | Failure =>
      failureCount (breaker (Call cb fn w)) = failureCount cb + 1 /\
      state (breaker (Call cb fn w)) =
        (if failureCount cb + 1 >=? failureThreshold cb then OPEN else CLOSED)
  | Success =>
      failureCount (breaker (Call cb fn w)) = 0 /\
      state (breaker (Call cb fn w)) = CLOSED
  | Rejection => False
  | Panic => breaker (Call cb fn w) = cb
  end.
Proof.
  intros Hs Hc Hm.
  destruct (closed_call cb fn w Hs Hc Hm) as (Hi & Hr & Ht & Hres).
  split; [assumption|]. rewrite verdict_entry, Hi, Hr.
  now destruct (fst (fn w)) as [[e|]|v].
Qed.

(** On a CLOSED breaker with threshold 3 and a failure count below 2, four
    calls that end failure, success, failure, failure leave the breaker
    CLOSED each time. *)
Lemma four_calls_stay_closed cb w (script : list (Step U)) :
  state cb = CLOSED -> failureThreshold cb = 3 ->
  0 <= failureCount cb < 2 ->
  verdicts (run cb w script) = [Failure; Success; Failure; Failure] ->
  states_after cb w script = [CLOSED; CLOSED; CLOSED; CLOSED] /\
  state (current (run cb w script)) = CLOSED.
Proof.
  intros Hs Hth Hc Hv.
  assert (Hlen : length script = 4%nat).
  { rewrite <- (run_length cb w). unfold verdicts in Hv.
    apply (f_equal (@length _)) in Hv.
    now rewrite length_map, length_rev in Hv. }
  destruct script as [|[e1 f1] [|[e2 f2] [|[e3 f3] [|[e4 f4] [|]]]]]; try discriminate.
  clear Hlen. unfold verdicts, run in Hv. simpl in Hv.
  injection Hv as H1 H2 H3 H4. unfold run. simpl.
  assert (Hmax : 3 <= max_int64) by (unfold max_int64; lia).
  (* first call: failure *)
  destruct (closed_call_verdict cb f1 (e1 w) Hs) as [T1 R1]; [lia|lia|].
  rewrite H1 in R1. destruct R1 as [C1 S1].
  rewrite Hth in S1.
  destruct (Z.geb_spec (failureCount cb + 1) 3); [lia|].
  set (o1 := Call cb f1 (e1 w)) in *.
  (* second call: success *)
  destruct (closed_call_verdict (breaker o1) f2 (e2 (world o1)) S1) as [T2 R2];
    [lia|lia|].
  rewrite H2 in R2. destruct R2 as [C2 S2].
  set (o2 := Call (breaker o1) f2 (e2 (world o1))) in *.
  (* third call: failure *)
  destruct (closed_call_verdict (breaker o2) f3 (e3 (world o2)) S2) as [T3 R3];
    [lia|lia|].
  rewrite H3 in R3. destruct R3 as [C3 S3].
  replace (failureThreshold (breaker o2)) with 3 in S3 by congruence.
  rewrite C2 in S3. simpl in S3.
  set (o3 := Call (breaker o2) f3 (e3 (world o2))) in *.
  (* fourth call: failure *)
  destruct (closed_call_verdict (breaker o3) f4 (e4 (world o3)) S3) as [T4 R4];
    [lia|lia|].
  rewrite H4 in R4. destruct R4 as [C4 S4].
  replace (failureThreshold (breaker o3)) with 3 in S4 by congruence.
  rewrite C3, C2 in S4. simpl in S4.
  rewrite S1, S2, S3, S4. auto.
Qed.

(** C5, as the code has it. A call whose operation returns [nil] leaves the
    failure count 0, whatever the state the operation was run in.
    Consequently, on a CLOSED breaker with threshold 3 that has fewer than
    two consecutive failures behind it (its failure count is below 2; a new
    breaker has none), four calls that end failure, success, failure,
    failure leave the breaker CLOSED each time. *)
Theorem success_breaks_the_run :
  (forall cb fn w,
      invokes cb w = true -> fst (fn w) = Returned None ->
      ret (Call cb fn w) = Returned None /\
      failureCount (breaker (Call cb fn w)) = 0) /\
  (forall cb w (script : list (Step U)),
      state cb = CLOSED -> failureThreshold cb = 3 ->
      0 <= failureCount cb < 2 ->
      verdicts (run cb w script) = [Failure; Success; Failure; Failure] ->
      states_after cb w script = [CLOSED; CLOSED; CLOSED; CLOSED] /\
      state (current (run cb w script)) = CLOSED) /\
  (forall t w (before script : list (Step U)),
      state (current (run (NewCircuitBreaker 3 t) w before)) = CLOSED ->
      (streak (log (run (NewCircuitBreaker 3 t) w before)) < 2)%nat ->
      verdicts (run (current (run (NewCircuitBreaker 3 t) w before))
                    (around (run (NewCircuitBreaker 3 t) w before)) script)
      = [Failure; Success; Failure; Failure] ->
      states_after (current (run (NewCircuitBreaker 3 t) w before))
                   (around (run (NewCircuitBreaker 3 t) w before)) script
      = [CLOSED; CLOSED; CLOSED; CLOSED]).
Proof.
  split; [exact success_resets_count|]. split; [exact four_calls_stay_closed|].
  intros t w before script Hs Hlt Hv.
  assert (Hmax : 3 <= max_int64) by (unfold max_int64; lia).
  destruct (@counted_run 3 t w before ltac:(lia) Hmax) as [Hth Hc].
  rewrite Hs in Hc. destruct Hc as [Hc _].
  apply four_calls_stay_closed; trivial. lia.
Qed.

(** The breaker is HALF_OPEN after a call exactly when the operation of the
    call panicked and the call had found the breaker OPEN or HALF_OPEN. *)
Lemma half_open_left cb fn w :
  state (breaker (Call cb fn w)) = HALF_OPEN <->
  verdict (mkEntry (state cb) (invokes cb w) (ret (Call cb fn w))) = Panic /\
  state cb <> CLOSED.
Proof.
  rewrite verdict_entry. split.
  - intros Hh. destruct (ret (Call cb fn w)) as [r|v] eqn:Hret.
    + destruct (Call_resolved cb fn w Hret); congruence.
    + destruct (Call_panic cb fn w Hret) as (Hi & _ & _ & Hb).
      rewrite Hi. split; [reflexivity|].
      rewrite Hb in Hh. intros Hc. rewrite Hc in Hh. congruence.
  - intros [Hv Hs]. destruct (invokes cb w); [|discriminate].
    destruct (ret (Call cb fn w)) as [[e|]|v] eqn:Hret; try discriminate.
    destruct (Call_panic cb fn w Hret) as (_ & _ & _ & ->).
    destruct (state cb) eqn:E; [now destruct Hs|reflexivity|assumption].
Qed.

(** C10, as the code has it. A new breaker is CLOSED, and a call that
    returns, whatever state it finds, returns with the breaker CLOSED or
    OPEN: when a call has set HALF_OPEN and its operation returns, the same
    call replaces HALF_OPEN before it returns. But a call whose operation
    panics does no bookkeeping and leaves the breaker as its first statement
    left it. So after a history of calls on a new breaker [GetState] answers
    HALF_OPEN exactly when the operation of the last call panicked and that
    call had found the breaker OPEN or HALF_OPEN; the next call then runs
    its operation. *)
Theorem half_open_only_after_panic :
  (forall th t, GetState (NewCircuitBreaker th t) = CLOSED) /\
  (forall cb fn w r,
      ret (Call cb fn w) = Returned r ->
      GetState (breaker (Call cb fn w)) = CLOSED \/
      GetState (breaker (Call cb fn w)) = OPEN) /\
  (forall cb fn w cb1 w1,
      gate cb w = Proceed cb1 w1 -> state cb1 = HALF_OPEN ->
      GetState (breaker (Call cb fn w)) =
        match fst (fn w) with
        | Returned (Some _) => OPEN
        | Returned None => CLOSED
        | Panicked _ => HALF_OPEN
        end) /\
  (forall th t w (script : list (Step U)),
      (GetState (current (run (NewCircuitBreaker th t) w script)) = HALF_OPEN <->
       exists e l, log (run (NewCircuitBreaker th t) w script) = e :: l /\
                   verdict e = Panic /\ entered e <> CLOSED) /\
      (GetState (current (run (NewCircuitBreaker th t) w script)) = HALF_OPEN ->
       forall w', invokes (current (run (NewCircuitBreaker th t) w script)) w'
                  = true)).
Proof.
  split; [reflexivity|]. split; [exact Call_resolved|]. split.
  - intros cb fn w cb1 w1 Hg Hh.
    unfold GetState. rewrite (Call_proceed _ fn _ Hg).
    destruct (fst (fn w)) as [err|v]; [|exact Hh].
    pose proof (settle_half_open cb1 err (snd (fn w)) Hh) as Hp.
    simpl. destruct err; tauto.
  - intros th t w script. split.
    + unfold GetState.
      induction script as [|stp script _] using rev_ind.
      * simpl. split; [discriminate|]. intros (e & l & H & _). discriminate.
      * rewrite run_snoc, exec1_current, exec1_log, half_open_left. split.
        -- intros [Hv Hs]. eexists. eexists. split; [reflexivity|].
           split; assumption.
        -- intros (e & l & [= <- _] & Hv & He). split; assumption.
    + intros Hh w'. unfold invokes. rewrite gate_not_open; [reflexivity|].
      unfold GetState in Hh. congruence.
Qed.

(** C7, as the code has it. A rejection is a new [errorString] whose text is
    "circuit breaker is OPEN", and callers know it by that text. The test is
    true of every rejection; of a call that ran the operation it is true
    exactly when the error of the operation itself carries that text, so a
    rejection is told from every operation error with another text. *)
Theorem rejection_known_by_text cb fn w :
  (invokes cb w = false ->
   exists e, ret (Call cb fn w) = Returned (Some e) /\
             is_open_rejection e = true /\
             dynType e = errorString_type /\ ident e = heap w) /\
  (invokes cb w = true ->
   forall e, ret (Call cb fn w) = Returned (Some e) ->
             fst (fn w) = Returned (Some e) /\
             (is_open_rejection e = true <-> Error e = open_text)).
Proof.
  split.
  - intros Hi. destruct (not_invoked_rejected _ fn _ Hi) as [-> _].
    eexists. repeat split.
  - intros Hi e He.
    pose proof (Call_ret_invoked cb fn w Hi) as Hr.
    split; [congruence|]. unfold is_open_rejection. apply String.eqb_eq.
Qed.

(** C8, as the code has it. [NewCircuitBreaker] accepts a threshold that is
    not positive: the breaker it returns is CLOSED with failure count 0 and
    runs the operations it is called with; the first operation that fails
    leaves it OPEN. *)
Theorem nonpositive_threshold_trips_at_once th t fn w :
  th <= 0 ->
  GetState (NewCircuitBreaker th t) = CLOSED /\
  failureCount (NewCircuitBreaker th t) = 0 /\
  failureThreshold (NewCircuitBreaker th t) = th /\
  invokes (NewCircuitBreaker th t) w = true /\
  ret (Call (NewCircuitBreaker th t) fn w) = fst (fn w) /\
  state (breaker (Call (NewCircuitBreaker th t) fn w)) =
    match fst (fn w) with
    | Returned (Some _) => OPEN
    | _ => CLOSED
    end.
Proof.
  intros Hth. repeat split.
  - unfold Call. simpl. destruct (fn w) as [[[e|]|v] w2]; reflexivity.
  - unfold Call. simpl. destruct (fn w) as [[[e|]|v] w2]; simpl; try reflexivity.
    rewrite (@wrap64_small 1) by (unfold in_int64, min_int64, max_int64; lia).
    destruct (Z.geb_spec 1 th); [reflexivity|lia].
Qed.

End Histories.

(** ** Goroutines *)

Section Goroutines.

Context {U : Type}.
Implicit Types (s : System U) (a : Action U) (p : nat -> Pc U).

Lemma upd_same p i x : upd p i x i = x.
Proof. unfold upd. now rewrite Nat.eqb_refl. Qed.

Lemma upd_other p i x j : j <> i -> upd p i x j = p j.
Proof. unfold upd. intros H. now destruct (Nat.eqb_spec j i). Qed.

Lemma probing_holding (x : Pc U) : probing x = true -> holding x = true.
Proof. now destruct x. Qed.

Lemma running_holding (x : Pc U) : running x = true -> holding x = true.
Proof. now destruct x. Qed.

Lemma outside_holding (x : Pc U) : outside x = negb (holding x).
Proof. now destruct x. Qed.

(** The goroutines past the gate, when the holder of the mutex moves on. *)
Lemma sole_prober s i x :
  exclusive s -> holding (pcs s i) = true -> probing x = false ->
  forall j, probing (upd (pcs s) i x j) = false.
Proof.
  intros (_ & Huniq & _) Hi Hx j.
  destruct (Nat.eq_dec j i) as [->|Hne]; [now rewrite upd_same|].
  rewrite upd_other by assumption.
  destruct (probing (pcs s j)) eqn:Hj; trivial.
  destruct Hne. apply Huniq; [now apply probing_holding|assumption].
Qed.

(** What the holder of the mutex finds while the breaker is HALF_OPEN and it
    is not past the gate itself: the operations of this period have all
    panicked. *)
Lemma exclusive_after_panic s i :
  exclusive s -> holding (pcs s i) = true -> probing (pcs s i) = false ->
  state (shared s) = HALF_OPEN ->
  (1 <= panics s)%nat /\ started s = panics s.
Proof.
  intros (_ & Huniq & Hhalf) Hh Hp Hs.
  destruct (Hhalf Hs) as [(j & Hj & _)|(_ & H1 & H2)]; [|now split].
  assert (j = i) by (apply Huniq; [now apply probing_holding|assumption]).
  subst j. congruence.
Qed.

(** What the goroutine past the gate knows while the breaker is HALF_OPEN. *)
Lemma exclusive_probe s i :
  exclusive s -> probing (pcs s i) = true ->
  state (shared s) = HALF_OPEN ->
  started s = (panics s + match pcs s i with AtInvoke _ => O | _ => 1 end)%nat.
Proof.
  intros (_ & Huniq & Hhalf) Hp Hs.
  destruct (Hhalf Hs) as [(j & Hj & Hn)|(Hnone & _)].
  - assert (j = i) by (apply Huniq; now apply probing_holding).
    now subst j.
  - rewrite Hnone in Hp. discriminate.
Qed.

Lemma exclusive_free_after_panic s :
  exclusive s -> locked s = false -> state (shared s) = HALF_OPEN ->
  (forall i, probing (pcs s i) = false) /\
  (1 <= panics s)%nat /\ started s = panics s.
Proof.
  intros (Hfree & _ & Hhalf) Hl Hs.
  assert (Hnone : forall i, probing (pcs s i) = false).
  { intros i. destruct (probing (pcs s i)) eqn:Hp; trivial.
    apply probing_holding in Hp. rewrite (Hfree Hl i) in Hp. discriminate. }
  split; [exact Hnone|].
  destruct (Hhalf Hs) as [(j & Hj & _)|(_ & H1 & H2)]; [|now split].
  rewrite Hnone in Hj. discriminate.
Qed.

(** A goroutine that keeps the mutex moves on: the holders stay the same. *)
Lemma exclusive_holder_moves s i x cb' w' n' k' :
  holding (pcs s i) = true -> holding x = true ->
  exclusive s ->
  (state cb' = HALF_OPEN ->
   if probing x
   then n' = (k' + match x with AtInvoke _ => O | _ => 1 end)%nat
   else (1 <= k')%nat /\ n' = k') ->
  exclusive (mkSystem cb' (locked s) (upd (pcs s) i x) w' n' k').
Proof.
  intros Hi Hx Hex Hnew. pose proof Hex as (Hfree & Huniq & Hhalf).
  repeat split; simpl.
  - intros Hl j. specialize (Hfree Hl i). congruence.
  - intros j k Hj Hk.
    assert (Hj' : holding (pcs s j) = true).
    { destruct (Nat.eq_dec j i) as [->|Hne]; [assumption|].
      now rewrite upd_other in Hj. }
    assert (Hk' : holding (pcs s k) = true).
    { destruct (Nat.eq_dec k i) as [->|Hne]; [assumption|].
      now rewrite upd_other in Hk. }
    now apply Huniq.
  - intros Hs. specialize (Hnew Hs). destruct (probing x) eqn:Hp.
    + left. exists i. rewrite upd_same. now split.
    + right. split; [|exact Hnew]. now apply sole_prober.
Qed.

Lemma exclusive_fire s a s' :
  exclusive s -> fire s a = Some s' -> exclusive s'.
Proof.
  intros Hex Hf. destruct a as [i|i fn|f]; simpl in Hf.
  - (* Run i *)
    destruct (pcs s i) as [|fn|fn|fn|fn|err|r|r] eqn:Hpc; try discriminate.
    + (* Lock *)
      destruct (locked s) eqn:Hl; [discriminate|]. injection Hf as <-.
      pose proof (exclusive_free_after_panic Hex Hl) as Hres.
      destruct Hex as (Hfree & Huniq & Hhalf).
      repeat split; simpl; try discriminate.
      * intros j k Hj Hk.
        destruct (Nat.eq_dec j i) as [->|Hj'], (Nat.eq_dec k i) as [->|Hk'];
          trivial.
        -- rewrite upd_other in Hk by assumption.
           rewrite (Hfree Hl k) in Hk. discriminate.
        -- rewrite upd_other in Hj by assumption.
           rewrite (Hfree Hl j) in Hj. discriminate.
        -- rewrite upd_other in Hj by assumption.
           rewrite (Hfree Hl j) in Hj. discriminate.
      * intros Hs. right. destruct (Hres Hs) as (Hnone & H1 & H2).
        split; [|now split].
        intros j. destruct (Nat.eq_dec j i) as [->|Hne].
        -- now rewrite upd_same.
        -- rewrite upd_other by assumption. apply Hnone.
    + (* the gate *)
      assert (Hh : holding (pcs s i) = true) by now rewrite Hpc.
      assert (Hp : probing (pcs s i) = false) by now rewrite Hpc.
      pose proof (exclusive_after_panic i Hex Hh Hp) as Hres.
      destruct (gate (shared s) (sworld s)) as [e w'|cb1 w1] eqn:Hg;
        injection Hf as <-.
      * apply exclusive_holder_moves; trivial.
      * apply exclusive_holder_moves; trivial.
        intros Hs. simpl.
        destruct (gate_state _ _ Hg) as (Hs1 & _). rewrite Hs in Hs1.
        rewrite Hs.
        destruct (state (shared s)) eqn:E; try discriminate; trivial.
        destruct (Hres eq_refl) as [_ ->]. lia.
    + (* the operation starts *)
      injection Hf as <-.
      apply exclusive_holder_moves; trivial; [now rewrite Hpc|].
      intros Hs. simpl.
      assert (Hp : probing (pcs s i) = true) by now rewrite Hpc.
      rewrite (exclusive_probe i Hex Hp Hs), Hpc. lia.
    + (* the operation ends *)
      assert (Hp : probing (pcs s i) = true) by now rewrite Hpc.
      destruct (fn (sworld s)) as [[err|v] w2]; injection Hf as <-.
      * apply exclusive_holder_moves; trivial; [now rewrite Hpc|].
        intros Hs. simpl.
        rewrite (exclusive_probe i Hex Hp Hs), Hpc. lia.
      * apply exclusive_holder_moves; trivial; [now rewrite Hpc|].
        intros Hs. simpl.
        rewrite (exclusive_probe i Hex Hp Hs), Hpc. lia.
    + (* the bookkeeping *)
      destruct (settle (shared s) err (sworld s)) as [cb2 r] eqn:Hst.
      injection Hf as <-.
      apply exclusive_holder_moves; trivial; [now rewrite Hpc|].
      intros Hs. exfalso.
      apply (settle_resolved (shared s) err (sworld s)). now rewrite Hst.
    + (* Unlock *)
      injection Hf as <-.
      assert (Hh : holding (pcs s i) = true) by now rewrite Hpc.
      assert (Hp : probing (pcs s i) = false) by now rewrite Hpc.
      pose proof (exclusive_after_panic i Hex Hh Hp) as Hres.
      pose proof (sole_prober i (Done r) Hex Hh eq_refl) as Hsole.
      destruct Hex as (Hfree & Huniq & Hhalf).
      assert (Hnone : forall j, holding (upd (pcs s) i (Done r) j) = false).
      { intros j. destruct (Nat.eq_dec j i) as [->|Hne].
        - now rewrite upd_same.
        - rewrite upd_other by assumption.
          destruct (holding (pcs s j)) eqn:Hj; trivial.
          destruct Hne. apply Huniq; [assumption|now rewrite Hpc]. }
      repeat split; simpl.
      * intros _. exact Hnone.
      * intros j k Hj. rewrite Hnone in Hj. discriminate.
      * intros Hs. right. split; [exact Hsole|]. now apply Hres.
  - (* Again *)
    destruct (pcs s i) as [|fn'|fn'|fn'|fn'|err|r|r] eqn:Hpc; try discriminate.
    injection Hf as <-.
    assert (Hsame : forall j, holding (upd (pcs s) i (AtLock fn) j) = holding (pcs s j)).
    { intros j. destruct (Nat.eq_dec j i) as [->|Hne].
      - now rewrite upd_same, Hpc.
      - now rewrite upd_other. }
    assert (Hsame' : forall j, probing (upd (pcs s) i (AtLock fn) j) = probing (pcs s j)).
    { intros j. destruct (Nat.eq_dec j i) as [->|Hne].
      - now rewrite upd_same, Hpc.
      - now rewrite upd_other. }
    destruct Hex as (Hfree & Huniq & Hhalf). repeat split; simpl.
    + intros Hl j. rewrite Hsame. now apply Hfree.
    + intros j k. rewrite !Hsame. apply Huniq.
    + intros Hs. destruct (Hhalf Hs) as [(j & Hj & Hn)|(Hnone & Hrest)].
      * left. exists j.
        assert (j <> i) by (intros ->; rewrite Hpc in Hj; discriminate).
        rewrite upd_other by assumption. now split.
      * right. split; [|exact Hrest]. intros j. rewrite Hsame'. apply Hnone.
  - (* Elapse *)
    injection Hf as <-. exact Hex.
Qed.

Lemma exclusive_spawn cb (fns : list (Operation U)) (w : World U) :
  state cb <> HALF_OPEN -> exclusive (spawn cb fns w).
Proof.
  intros Hs.
  assert (Hnone : forall i, holding (pcs (spawn cb fns w) i) = false).
  { intros i. simpl. now destruct (nth_error fns i). }
  repeat split.
  - intros _. exact Hnone.
  - intros i j Hi. rewrite Hnone in Hi. discriminate.
  - intros Hh. now destruct Hs.
Qed.

Lemma exclusive_fire_all sched : forall s s',
  exclusive s -> fire_all s sched = Some s' -> exclusive s'.
Proof.
  induction sched as [|a sched IH]; simpl; intros s s' Hex Hf.
  - now injection Hf as <-.
  - destruct (fire s a) as [s1|] eqn:Ha; [|discriminate].
    apply (IH s1); [now apply (exclusive_fire a Hex)|assumption].
Qed.

Lemma solo_step n i s :
  solo (S n) i s =
  match pcs s i with
  | Done _ => Some s
  | _ => match fire s (Run i) with
         | Some s' => solo n i s'
         | None => None
         end
  end.
Proof. reflexivity. Qed.

Lemma solo_done n i s r : pcs s i = Done r -> solo n i s = Some s.
Proof. intros H. destruct n; simpl; now rewrite H. Qed.

(** A goroutine that runs [Call] without another one running in between
    does what [Call] does: the model of the goroutines is the function
    [Call], cut at its statements. *)
Lemma solo_is_Call s i fn :
  pcs s i = AtLock fn -> locked s = false ->
  exists s',
    solo 6 i s = Some s' /\
    pcs s' i = Done (ret (Call (shared s) fn (sworld s))) /\
    shared s' = breaker (Call (shared s) fn (sworld s)) /\
    sworld s' = world (Call (shared s) fn (sworld s)) /\
    locked s' = false.
Proof.
  intros Hpc Hl. unfold Call.
  rewrite solo_step, Hpc. cbn [fire]. rewrite Hpc, Hl.
  rewrite solo_step. cbn [pcs fire shared sworld locked started panics].
  rewrite upd_same.
  destruct (gate (shared s) (sworld s)) as [e w'|cb1 w1] eqn:Hg.
  - rewrite solo_step. cbn [pcs fire shared sworld locked started panics].
    rewrite upd_same.
    eexists. split; [apply (solo_done _ _ _ (r := Returned (Some e))); apply upd_same|].
    cbn [pcs shared sworld locked]. rewrite upd_same. auto.
  - rewrite solo_step. cbn [pcs fire shared sworld locked started panics].
    rewrite upd_same.
    rewrite solo_step. cbn [pcs fire shared sworld locked started panics].
    rewrite upd_same.
    destruct (fn w1) as [[err|v] w2].
    + rewrite solo_step. cbn [pcs fire shared sworld locked started panics].
      rewrite upd_same.
      destruct (settle cb1 err w2) as [cb2 r].
      rewrite solo_step. cbn [pcs fire shared sworld locked started panics].
      rewrite upd_same.
      eexists. split; [apply (solo_done _ _ _ (r := Returned r)); apply upd_same|].
      cbn [pcs shared sworld locked]. rewrite upd_same. auto.
    + rewrite solo_step. cbn [pcs fire shared sworld locked started panics].
      rewrite upd_same.
      eexists. split; [apply (solo_done _ _ _ (r := Panicked v)); apply upd_same|].
      cbn [pcs shared sworld locked]. rewrite upd_same. auto.
Qed.

(** A goroutine that holds the mutex can run its next statement. *)
Lemma holder_can_run s i :
  holding (pcs s i) = true -> fire s (Run i) <> None.
Proof.
  intros Hh. simpl. destruct (pcs s i); try discriminate.
  - now destruct (gate (shared s) (sworld s)).
  - now destruct (fn (sworld s)) as [[err|v] w2].
  - now destruct (settle (shared s) err (sworld s)).
Qed.

(** C9, as the code has it. Any number of goroutines call [Call] on one
    breaker that is not HALF_OPEN, and are scheduled in any way. Then, at
    every moment: two goroutines are never inside the wrapped operation
    together. While the breaker is HALF_OPEN at most one goroutine is past
    the gate, every other goroutine is then waiting for the mutex or is not
    in a call, and the operations started in this HALF_OPEN period before
    the one it runs have all panicked; so while no operation has panicked in
    the period there is exactly one such goroutine, and it has started the
    only operation started since the breaker became HALF_OPEN or is about
    to start it. A goroutine that reads the state at the gate finds CLOSED
    or OPEN, the state the last probe left, or else HALF_OPEN, left by
    operations that have all panicked, and then it runs its operation as
    the next probe. When the bookkeeping ends a HALF_OPEN period, the
    operation that returned is the only one started in the period that did
    not panic. And the goroutine that holds the mutex is never stuck. *)
Theorem one_returning_probe_per_half_open cb (fns : list (Operation U))
        (w : World U) sched s :
  state cb <> HALF_OPEN ->
  fire_all (spawn cb fns w) sched = Some s ->
  (forall i j, running (pcs s i) = true -> running (pcs s j) = true -> i = j) /\
  (state (shared s) = HALF_OPEN ->
   (exists i, probing (pcs s i) = true /\
              started s = (panics s
                           + match pcs s i with AtInvoke _ => O | _ => 1 end)%nat /\
              forall j, j <> i -> outside (pcs s j) = true)
   \/
   ((forall i, probing (pcs s i) = false) /\
    (1 <= panics s)%nat /\ started s = panics s)) /\
  (state (shared s) = HALF_OPEN -> panics s = O ->
   exists i, probing (pcs s i) = true /\
             started s = match pcs s i with AtInvoke _ => O | _ => 1%nat end /\
             forall j, j <> i -> outside (pcs s j) = true) /\
  (forall i fn, pcs s i = AtGate fn ->
                state (shared s) = CLOSED \/ state (shared s) = OPEN \/
                state (shared s) = HALF_OPEN /\
                (1 <= panics s)%nat /\ started s = panics s /\
                exists s', fire s (Run i) = Some s' /\ pcs s' i = AtInvoke fn) /\
  (forall i err, pcs s i = AtSettle err -> state (shared s) = HALF_OPEN ->
                 started s = S (panics s)) /\
  (forall i, holding (pcs s i) = true -> fire s (Run i) <> None).
Proof.
  intros Hcb Hf.
  assert (Hex : exclusive s).
  { eapply exclusive_fire_all; [|exact Hf]. now apply exclusive_spawn. }
  pose proof Hex as (Hfree & Huniq & Hhalf).
  assert (Hone : state (shared s) = HALF_OPEN ->
     (exists i, probing (pcs s i) = true /\
                started s = (panics s
                             + match pcs s i with AtInvoke _ => O | _ => 1 end)%nat /\
                forall j, j <> i -> outside (pcs s j) = true)
     \/
     ((forall i, probing (pcs s i) = false) /\
      (1 <= panics s)%nat /\ started s = panics s)).
  { intros Hs. destruct (Hhalf Hs) as [(i & Hi & Hn)|Hnone]; [left|now right].
    exists i. repeat split; trivial. intros j Hne. rewrite outside_holding.
    destruct (holding (pcs s j)) eqn:Hj; trivial.
    destruct Hne. apply Huniq; [assumption|now apply probing_holding]. }
  split; [|split; [exact Hone|split; [|split; [|split]]]].
  - intros i j Hi Hj. apply Huniq; now apply running_holding.
  - intros Hs Hp.
    destruct (Hone Hs) as [(i & Hi & Hn & Hout)|(_ & H1 & _)]; [|lia].
    exists i. rewrite Hp in Hn. now repeat split.
  - intros i fn Hpc.
    destruct (state (shared s)) eqn:E; auto. right. right.
    split; [reflexivity|].
    assert (Hh : holding (pcs s i) = true) by now rewrite Hpc.
    assert (Hp : probing (pcs s i) = false) by now rewrite Hpc.
    destruct (exclusive_after_panic i Hex Hh Hp E) as [H1 H2].
    split; [exact H1|]. split; [exact H2|].
    simpl. rewrite Hpc, gate_not_open by congruence.
    eexists. split; [reflexivity|]. simpl. apply upd_same.
  - intros i err Hpc Hs.
    assert (Hp : probing (pcs s i) = true) by now rewrite Hpc.
    rewrite (exclusive_probe i Hex Hp Hs), Hpc. lia.
  - apply holder_can_run.
Qed.

End Goroutines.

(** ** Scenarios *)

Module Scenarios.

Import Demo.

(** The scenario of the specification, with threshold 3 and timeout 5s:
    three failures trip the breaker; the fourth call is rejected and the
    operation is not run (the counter of the operation stays at 3); after
    5.001s a failing probe leaves the breaker OPEN with a new last failure
    time; after 5.001s more a succeeding probe leaves it CLOSED with failure
    count 0. *)
Example lifecycle :
  let s3 := run fresh3 w0 [fail_now; fail_now; fail_now] in
  let s4 := exec1 s3 fail_now in
  let s5 := exec1 s4 fail_later in
  let s6 := exec1 s5 succeed_later in
  states_after fresh3 w0
    [fail_now; fail_now; fail_now; fail_now; fail_later; succeed_later]
  = [CLOSED; CLOSED; OPEN; OPEN; OPEN; CLOSED] /\
  verdicts s6 = [Failure; Failure; Failure; Rejection; Failure; Success] /\
  user (around s3) = 3%nat /\ user (around s4) = 3%nat /\
  lastFailure (current s4) = lastFailure (current s3) /\
  lastFailure (current s5) <> lastFailure (current s4) /\
  lastFailure (current s5) = Now (around s5) /\
  failureCount (current s6) = 0.
Proof. vm_compute. repeat split; congruence. Qed.

Lemma trips_exactly_at_threshold_witness :
  state (current (run fresh3 w0 [fail_now; fail_now])) = CLOSED /\
  state (current (exec1 (run fresh3 w0 [fail_now; fail_now]) fail_now)) = OPEN /\
  state (current (exec1 (run fresh3 w0 [fail_now; succeed_now]) fail_now)) = CLOSED.
Proof.
  assert (H0 : 0 < 3) by lia.
  assert (H1 : 3 <= max_int64) by (vm_compute; discriminate).
  split; [reflexivity|]. split.
  - apply (trips_exactly_at_threshold (5 * Second) w0 [fail_now; fail_now]
             fail_now H0 H1); reflexivity.
  - apply (trips_exactly_at_threshold (5 * Second) w0 [fail_now; succeed_now]
             fail_now H0 H1); [reflexivity|vm_compute; reflexivity].
Defined.

Lemma open_call_rejected_witness :
  state tripped = OPEN /\
  Since w0 (lastFailure tripped) <= timeout tripped /\
  invokes tripped w0 = false /\
  breaker (Call tripped healthy w0) = tripped /\
  user (world (Call tripped healthy w0)) = user w0.
Proof.
  assert (H0 : state tripped = OPEN) by reflexivity.
  assert (H1 : Since w0 (lastFailure tripped) <= timeout tripped)
    by (vm_compute; discriminate).
  split; [exact H0|]. split; [exact H1|].
  destruct (open_call_rejected tripped healthy w0 H0 H1) as (HC & Hi & _).
  split; [exact Hi|]. rewrite HC. split; reflexivity.
Defined.

Lemma expired_open_call_probes_witness :
  Since w_late (lastFailure tripped) > timeout tripped /\
  invokes tripped w_late = true /\
  state (breaker (Call tripped healthy w_late)) = CLOSED /\
  state (breaker (Call tripped (failing "down") w_late)) = OPEN.
Proof.
  assert (H0 : state tripped = OPEN) by reflexivity.
  assert (H1 : Since w_late (lastFailure tripped) > timeout tripped)
    by (vm_compute; reflexivity).
  split; [exact H1|].
  split; [apply (expired_open_call_probes tripped healthy w_late H0 H1)|].
  split.
  - apply (expired_open_call_probes tripped healthy w_late H0 H1).
  - apply (expired_open_call_probes tripped (failing "down") w_late H0 H1).
Defined.

Lemma half_open_probe_resolves_witness :
  state (breaker (Call tripped (failing "down") w_late)) = OPEN /\
  lastFailure (breaker (Call tripped (failing "down") w_late))
  = At (clock w_late + 100 * Millisecond).
Proof.
  assert (Hg : gate tripped w_late
               = Proceed (set_failureCount 0 (set_state HALF_OPEN tripped)) w_late)
    by reflexivity.
  assert (Hh : state (set_failureCount 0 (set_state HALF_OPEN tripped)) = HALF_OPEN)
    by reflexivity.
  pose proof (half_open_probe_resolves tripped (failing "down") w_late Hg Hh) as H.
  simpl in H. destruct H as (_ & H1 & H2 & _). split; [exact H1|exact H2].
Defined.

(** A breaker with threshold 3 that is CLOSED, with two failures behind it:
    of four calls that end failure, success, failure, failure, the first
    leaves it OPEN. (The second call is made after the timeout, or its
    operation would not run.) *)
Lemma two_failures_behind_trip :
  state (current two_down) = CLOSED /\
  failureThreshold (current two_down) = 3 /\
  verdicts (run (current two_down) (around two_down)
                [fail_now; succeed_later; fail_now; fail_now])
  = [Failure; Success; Failure; Failure] /\
  states_after (current two_down) (around two_down)
               [fail_now; succeed_later; fail_now; fail_now]
  = [OPEN; CLOSED; CLOSED; CLOSED] /\
  ~ (forall (cb : CircuitBreaker) (w : W) (script : list (Step nat)),
        state cb = CLOSED -> failureThreshold cb = 3 ->
        verdicts (run cb w script) = [Failure; Success; Failure; Failure] ->
        states_after cb w script = [CLOSED; CLOSED; CLOSED; CLOSED]).
Proof.
  split; [reflexivity|]. split; [reflexivity|].
  split; [vm_compute; reflexivity|]. split; [vm_compute; reflexivity|].
  intros H.
  specialize (H (current two_down) (around two_down)
                [fail_now; succeed_later; fail_now; fail_now]
                eq_refl eq_refl).
  vm_compute in H. specialize (H eq_refl). discriminate H.
Qed.

Lemma success_breaks_the_run_witness :
  states_after fresh3 w0 [fail_now; succeed_now; fail_now; fail_now]
  = [CLOSED; CLOSED; CLOSED; CLOSED].
Proof.
  apply (proj1 (proj2 success_breaks_the_run) fresh3 w0
           [fail_now; succeed_now; fail_now; fail_now]).
  - reflexivity.
  - reflexivity.
  - simpl. lia.
  - reflexivity.
Defined.

Lemma operation_result_passes_through_witness :
  ret (Call fresh3 (failing "service unavailable") w0)
  = Returned (Some (mkError errorString_type 0 "service unavailable")) /\
  ret (Call fresh3 healthy w0) = Returned None.
Proof.
  assert (Hi : invokes fresh3 w0 = true) by reflexivity.
  split.
  - apply (operation_result_passes_through fresh3 (failing "service unavailable")
             w0 Hi). reflexivity.
  - apply (operation_result_passes_through fresh3 healthy w0 Hi). reflexivity.
Defined.

(** The breaker [fresh3] runs an operation that calls through the tripped
    breaker; the error it returns is the one the tripped breaker itself
    returns from the same world. No test on the returned value, and so not
    the test on the text, separates the call that ran its operation from
    the call that rejected. *)
Lemma rejection_mistaken :
  invokes tripped w0 = false /\
  invokes fresh3 w0 = true /\
  ret (Call fresh3 (through tripped healthy) w0) = ret (Call tripped healthy w0) /\
  (exists e, ret (Call fresh3 (through tripped healthy) w0) = Returned (Some e) /\
             is_open_rejection e = true) /\
  ~ (exists told : error -> bool,
       forall (cb : CircuitBreaker) (fn : Operation nat) (w : W) (e : error),
         ret (Call cb fn w) = Returned (Some e) ->
         told e = negb (invokes cb w)).
Proof.
  split; [reflexivity|]. split; [reflexivity|]. split; [reflexivity|]. split.
  - eexists. split; reflexivity.
  - intros [told H].
    pose proof (H tripped healthy w0 _ eq_refl) as H1.
    pose proof (H fresh3 (through tripped healthy) w0 _ eq_refl) as H2.
    change (invokes tripped w0) with false in H1.
    change (invokes fresh3 w0) with true in H2.
    simpl negb in H1, H2.
    change (told (mkError errorString_type 0 open_text) = true) in H1.
    change (told (mkError errorString_type 0 open_text) = false) in H2.
    congruence.
Qed.

Lemma rejection_known_by_text_witness :
  is_open_rejection (mkError errorString_type 0 "service unavailable") = true
  <-> "service unavailable"%string = open_text.
Proof.
  assert (Hi : invokes fresh3 w0 = true) by reflexivity.
  apply (proj2 (rejection_known_by_text fresh3 (failing "service unavailable") w0)
           Hi (mkError errorString_type 0 "service unavailable") eq_refl).
Defined.

(** The operation of a call that found the breaker OPEN, with the timeout
    expired, panics. The call is over, nobody holds the mutex, and
    [GetState] answers HALF_OPEN; so it does after the history of three
    failures and that call on a new breaker. *)
Lemma half_open_after_panic :
  ret (Call tripped (crashing "boom") w_late) = Panicked "boom" /\
  GetState (breaker (Call tripped (crashing "boom") w_late)) = HALF_OPEN /\
  GetState (current (run fresh3 w0 [fail_now; fail_now; fail_now; crash_later]))
  = HALF_OPEN /\
  (exists s,
      fire_all (spawn tripped [crashing "boom"] w_late)
               [Run 0%nat; Run 0%nat; Run 0%nat; Run 0%nat; Run 0%nat] = Some s /\
      pcs s 0%nat = Done (Panicked "boom") /\
      locked s = false /\
      (forall j, holding (pcs s j) = false) /\
      GetState (shared s) = HALF_OPEN) /\
  ~ (forall (cb : CircuitBreaker) (fn : Operation nat) (w : W),
        GetState (breaker (Call cb fn w)) = CLOSED \/
        GetState (breaker (Call cb fn w)) = OPEN).
Proof.
  split; [reflexivity|]. split; [reflexivity|].
  split; [vm_compute; reflexivity|]. split.
  - eexists. split; [vm_compute; reflexivity|].
    split; [reflexivity|]. split; [reflexivity|]. split; [|reflexivity].
    intros [|[|j]]; reflexivity.
  - intros H. destruct (H tripped (crashing "boom") w_late) as [E|E];
      vm_compute in E; discriminate E.
Qed.

Lemma half_open_only_after_panic_witness :
  GetState (breaker (Call tripped healthy w_late)) = CLOSED \/
  GetState (breaker (Call tripped healthy w_late)) = OPEN.
Proof.
  apply (proj1 (proj2 half_open_only_after_panic) tripped healthy w_late None).
  reflexivity.
Defined.

(** [NewCircuitBreaker(0, 5s)] returns a breaker, and the breaker runs the
    operation it is called with. *)
Lemma nonpositive_threshold_accepted :
  GetState (NewCircuitBreaker 0 (5 * Second)) = CLOSED /\
  invokes (NewCircuitBreaker 0 (5 * Second)) w0 = true /\
  ret (Call (NewCircuitBreaker 0 (5 * Second)) healthy w0) = Returned None /\
  user (world (Call (NewCircuitBreaker 0 (5 * Second)) healthy w0)) = 1%nat /\
  GetState (breaker (Call (NewCircuitBreaker 0 (5 * Second)) healthy w0)) = CLOSED.
Proof. repeat split. Qed.

Lemma nonpositive_threshold_trips_at_once_witness :
  state (breaker (Call (NewCircuitBreaker (-1) (5 * Second))
                       (failing "service unavailable") w0)) = OPEN.
Proof.
  assert (H : -1 <= 0) by lia.
  apply (nonpositive_threshold_trips_at_once (5 * Second)
           (failing "service unavailable") w0 H).
Defined.

(** Two goroutines call a breaker that is OPEN with the timeout expired.
    The call of goroutine 0 sets HALF_OPEN and runs its operation, which
    panics; the call is over and the mutex is free. Goroutine 1 then finds
    HALF_OPEN at the gate, is not rejected, and runs its operation: two
    operations were run in one HALF_OPEN period. *)
Lemma second_probe_after_panic :
  state tripped = OPEN /\
  Since w_late (lastFailure tripped) > timeout tripped /\
  (exists s1,
      fire_all pair (firstn 6 sched2) = Some s1 /\
      pcs s1 0%nat = Done (Panicked "boom") /\
      pcs s1 1%nat = AtGate healthy /\
      state (shared s1) = HALF_OPEN) /\
  fire_all pair sched2 = Some pair_after /\
  pcs pair_after 1%nat = AtSettle None /\
  state (shared pair_after) = HALF_OPEN /\
  started pair_after = 2%nat /\
  user (sworld pair_after) = 2%nat.
Proof.
  split; [reflexivity|]. split; [vm_compute; reflexivity|]. split.
  - eexists. split; [vm_compute; reflexivity|]. repeat split.
  - split; [vm_compute; reflexivity|]. repeat split.
Qed.

Lemma one_returning_probe_per_half_open_witness :
  state (shared three_probing) = HALF_OPEN /\
  running (pcs three_probing 1%nat) = true /\
  started three_probing = 1%nat /\
  (forall j, running (pcs three_probing j) = true -> j = 1%nat).
Proof.
  assert (H0 : state tripped <> HALF_OPEN) by discriminate.
  assert (H1 : fire_all three sched1 = Some three_probing) by reflexivity.
  pose proof (@one_returning_probe_per_half_open nat tripped
                [healthy; healthy; healthy]
                w_late sched1 three_probing H0 H1) as (Hrun & _).
  split; [reflexivity|]. split; [reflexivity|]. split; [reflexivity|].
  intros j Hj. apply Hrun; [exact Hj|reflexivity].
Defined.

End Scenarios.

(** ** What a call changes, and when *)

Section CallFrame.

Context {U : Type}.
Implicit Types (cb : CircuitBreaker) (w : World U) (fn : Operation U).
Implicit Types (s : Session U) (stp : Step U).

Lemma Call_config cb fn w :
  failureThreshold (breaker (Call cb fn w)) = failureThreshold cb /\
  timeout (breaker (Call cb fn w)) = timeout cb.
Proof.
  destruct (invokes cb w) eqn:Hi.
  - apply invokes_proceed in Hi as [cb1 Hg].
    rewrite (Call_proceed _ fn _ Hg).
    destruct (gate_state _ _ Hg) as (_ & Ht & Hto & _).
    destruct (fst (fn w)) as [err|v]; simpl; [|now split].
    destruct (settle_config cb1 err (snd (fn w))). split; congruence.
  - destruct (not_invoked_rejected _ fn _ Hi) as [_ ->]. now split.
Qed.

Lemma settle_lastFailure cb err w :
  lastFailure (fst (settle cb err w)) =
  match err with Some _ => Now w | None => lastFailure cb end.
Proof.
  destruct err; simpl.
  - destruct (state cb); simpl; trivial; now destruct (_ >=? _).
  - now destruct (state cb).
Qed.

(** [Call] never changes the threshold or the timeout, neither in one call
    nor over a history, and it writes the last failure time exactly when it
    ran the operation and the operation returned an error; the time written
    is the reading [time.Now()] takes after the operation. *)
Theorem call_frame cb fn w :
  failureThreshold (breaker (Call cb fn w)) = failureThreshold cb /\
  timeout (breaker (Call cb fn w)) = timeout cb /\
  lastFailure (breaker (Call cb fn w)) =
    (if invokes cb w
     then match fst (fn w) with
          | Returned (Some _) => Now (snd (fn w))
          | _ => lastFailure cb
          end
     else lastFailure cb) /\
  (forall script : list (Step U),
      failureThreshold (current (run cb w script)) = failureThreshold cb /\
      timeout (current (run cb w script)) = timeout cb).
Proof.
  destruct (Call_config cb fn w) as [Hth Hto].
  split; [exact Hth|]. split; [exact Hto|]. split.
  - destruct (invokes cb w) eqn:Hi.
    + apply invokes_proceed in Hi as [cb1 Hg].
      rewrite (Call_proceed _ fn _ Hg).
      destruct (gate_state _ _ Hg) as (_ & _ & _ & Hl).
      destruct (fst (fn w)) as [err|v]; simpl; [|exact Hl].
      rewrite settle_lastFailure. now destruct err.
    + now destruct (not_invoked_rejected _ fn _ Hi) as [_ ->].
  - intros script. induction script as [|stp script IH] using rev_ind.
    + now split.
    + rewrite run_snoc, exec1_current.
      destruct (Call_config (current (run cb w script)) (snd stp)
                            (fst stp (around (run cb w script)))).
      destruct IH. split; congruence.
Qed.

(** [Call] returns [nil] exactly when it ran the operation and the operation
    returned [nil]: a rejection is never reported as a success, and neither
    is a failure of the operation. And [Call] panics exactly when it ran
    the operation and the operation panicked, with the value of that
    panic: [Call] has no panic of its own and recovers none. *)
Theorem nil_means_success cb fn w :
  (ret (Call cb fn w) = Returned None
   <-> invokes cb w = true /\ fst (fn w) = Returned None) /\
  (forall v, ret (Call cb fn w) = Panicked v
             <-> invokes cb w = true /\ fst (fn w) = Panicked v).
Proof.
  destruct (invokes cb w) eqn:Hi.
  - rewrite (Call_ret_invoked cb fn w Hi). split; [tauto|]. intros v. tauto.
  - destruct (not_invoked_rejected _ fn _ Hi) as [-> _].
    split; [|intros v]; (split; [discriminate|]); now intros [? _].
Qed.

Lemma within_Call th cb fn w :
  th <= max_int64 -> within th cb -> within th (breaker (Call cb fn w)).
Proof.
  intros Hmax (Hth & Hc & Hst).
  destruct (Call_config cb fn w) as [Hth' _].
  destruct (invokes cb w) eqn:Hi.
  - apply invokes_proceed in Hi as [cb1 Hg].
    rewrite (Call_proceed _ fn _ Hg) in *.
    unfold gate in Hg. destruct (state cb) eqn:Hs.
    + (* CLOSED *)
      injection Hg as <-. unfold within.
      destruct (fst (fn w)) as [[e|]|v]; simpl in *; rewrite ?Hs; simpl.
      * split; [destruct (_ >=? _); simpl; congruence|].
        rewrite wrap64_small
          by (unfold in_int64, min_int64, max_int64 in *; lia).
        destruct (Z.geb_spec (failureCount cb + 1) (failureThreshold cb));
          simpl; rewrite ?Hs; lia.
      * split; [congruence|]. lia.
      * split; [congruence|]. lia.
    + (* OPEN, timeout elapsed *)
      destruct (Since w (lastFailure cb) >? timeout cb); [|discriminate].
      injection Hg as <-. unfold within.
      destruct (fst (fn w)) as [[e|]|v]; simpl in *.
      * split; [congruence|].
        rewrite (@wrap64_small 1)
          by (unfold in_int64, min_int64, max_int64; lia). lia.
      * split; [congruence|]. lia.
      * split; [congruence|]. lia.
    + (* HALF_OPEN *)
      injection Hg as <-. unfold within.
      destruct (fst (fn w)) as [[e|]|v]; simpl in *; rewrite ?Hs; simpl.
      * split; [congruence|].
        rewrite wrap64_small
          by (unfold in_int64, min_int64, max_int64; lia). lia.
      * split; [congruence|]. lia.
      * split; [congruence|]. lia.
  - destruct (not_invoked_rejected _ fn _ Hi) as [_ ->].
    now repeat split.
Qed.

Lemma within_run th t w (script : list (Step U)) :
  th <= max_int64 ->
  within th (current (run (NewCircuitBreaker th t) w script)).
Proof.
  intros Hmax. induction script as [|stp script IH] using rev_ind.
  - unfold within. simpl. lia.
  - rewrite run_snoc, exec1_current. now apply within_Call.
Qed.

(** On a breaker made with a threshold that fits an [int], whatever the
    threshold and whatever the calls made: the failure count is never
    negative and never exceeds the threshold (1, when the threshold is not
    positive); it never wraps around. *)
Theorem failure_count_bounded th t w (script : list (Step U)) :
  th <= max_int64 ->
  0 <= failureCount (current (run (NewCircuitBreaker th t) w script))
    <= Z.max th 1 /\
  in_int64 (failureCount (current (run (NewCircuitBreaker th t) w script))).
Proof.
  intros Hmax.
  destruct (within_run t w script Hmax) as (_ & Hc & _). split; [exact Hc|].
  unfold in_int64, min_int64, max_int64 in *. lia.
Qed.

Lemma open_call_fails cb fn w e :
  state cb = OPEN -> fst (fn w) = Returned (Some e) ->
  state (breaker (Call cb fn w)) = OPEN.
Proof.
  intros Hs He. destruct (invokes cb w) eqn:Hi.
  - apply invokes_proceed in Hi as [cb1 Hg].
    destruct (gate_state _ _ Hg) as (Hs1 & _). rewrite Hs in Hs1.
    pose proof (settle_half_open cb1 (Some e) (snd (fn w)) Hs1) as Hp.
    rewrite (Call_returned _ fn _ Hg He). cbn [breaker]. exact (proj1 Hp).
  - destruct (not_invoked_rejected _ fn _ Hi) as [_ ->]. exact Hs.
Qed.

(** The state changes on evidence only. A call leaves a CLOSED breaker OPEN
    only if it ran the operation and the operation returned an error; it
    leaves an OPEN breaker CLOSED only if the timeout had elapsed, it ran
    the operation and the operation returned [nil]. A CLOSED breaker stays
    CLOSED when the operation returns [nil] or panics, and an OPEN breaker
    stays OPEN when the operation returns an error. *)
Theorem state_changes_on_evidence cb fn w :
  (state cb = CLOSED -> state (breaker (Call cb fn w)) = OPEN ->
   invokes cb w = true /\ (exists e, fst (fn w) = Returned (Some e)) /\
   failureCount (breaker (Call cb fn w)) >= failureThreshold cb) /\
  (state cb = OPEN -> state (breaker (Call cb fn w)) = CLOSED ->
   Since w (lastFailure cb) > timeout cb /\
   invokes cb w = true /\ fst (fn w) = Returned None) /\
  (state cb = CLOSED -> (forall e, fst (fn w) <> Returned (Some e)) ->
   state (breaker (Call cb fn w)) = CLOSED) /\
  (state cb = OPEN -> (exists e, fst (fn w) = Returned (Some e)) ->
   state (breaker (Call cb fn w)) = OPEN).
Proof.
  split; [|split; [|split]].
  - intros Hs Ho.
    assert (Hg : gate cb w = Proceed cb w) by (apply gate_not_open; congruence).
    rewrite (Call_proceed _ fn _ Hg) in *.
    split; [unfold invokes; now rewrite Hg|].
    destruct (fst (fn w)) as [[e|]|v]; simpl in *.
    + split; [now exists e|]. rewrite Hs in Ho |- *.
      simpl in Ho |- *.
      destruct (Z.geb_spec (wrap64 (failureCount cb + 1)) (failureThreshold cb));
        simpl in Ho |- *; [lia|congruence].
    + rewrite Hs in Ho. simpl in Ho. congruence.
    + congruence.
  - intros Hs Hc.
    destruct (reclosed_call cb fn w) as [_ Hre]; [congruence|].
    destruct (Hre Hc) as (Hi & Hr & _).
    split; [|split; [exact Hi|]].
    + unfold invokes, gate in Hi. rewrite Hs in Hi.
      destruct (Z.gtb_spec (Since w (lastFailure cb)) (timeout cb));
        [lia|discriminate].
    + now rewrite <- (Call_ret_invoked cb fn w Hi).
  - intros Hs Hn.
    assert (Hg : gate cb w = Proceed cb w) by (apply gate_not_open; congruence).
    rewrite (Call_proceed _ fn _ Hg).
    destruct (fst (fn w)) as [[e|]|v]; simpl.
    + now destruct (Hn e).
    + now rewrite Hs.
    + exact Hs.
  - intros Hs [e He]. exact (open_call_fails cb fn w Hs He).
Qed.

Lemma verdicts_snoc cb w (script : list (Step U)) stp :
  verdicts (run cb w (script ++ [stp])) =
  verdicts (run cb w script) ++
  [verdict (mkEntry (state (current (run cb w script)))
                    (invokes (current (run cb w script))
                             (fst stp (around (run cb w script))))
                    (ret (Call (current (run cb w script)) (snd stp)
                               (fst stp (around (run cb w script))))))].
Proof.
  unfold verdicts. rewrite run_snoc, exec1_log. simpl. now rewrite map_app.
Qed.

(** No rejection and no trip without a failure. On a new breaker, whatever
    its threshold: if no operation of a history returned an error, then
    every call of the history ran its operation, and the breaker is CLOSED
    with failure count 0. *)
Theorem healthy_service_never_rejected th t w (script : list (Step U)) :
  Forall (fun v => v <> Failure) (verdicts (run (NewCircuitBreaker th t) w script)) ->
  Forall (fun v => v = Success \/ v = Panic)
         (verdicts (run (NewCircuitBreaker th t) w script)) /\
  state (current (run (NewCircuitBreaker th t) w script)) = CLOSED /\
  failureCount (current (run (NewCircuitBreaker th t) w script)) = 0.
Proof.
  induction script as [|stp script IH] using rev_ind.
  - intros _. repeat split. constructor.
  - rewrite verdicts_snoc, run_snoc, exec1_current. intros Hf.
    apply Forall_app in Hf as [Hf Hlast]. apply Forall_inv in Hlast.
    destruct (IH Hf) as (Hall & Hs & Hc).
    set (cb := current (run (NewCircuitBreaker th t) w script)) in *.
    set (w' := fst stp (around (run (NewCircuitBreaker th t) w script))) in *.
    assert (Hg : gate cb w' = Proceed cb w') by (apply gate_not_open; congruence).
    assert (Hi : invokes cb w' = true) by (unfold invokes; now rewrite Hg).
    rewrite verdict_entry, Hi in *.
    rewrite (Call_ret_invoked cb (snd stp) w' Hi) in *.
    rewrite (Call_proceed _ (snd stp) _ Hg).
    destruct (fst (snd stp w')) as [[e|]|v]; [now destruct Hlast| |]; simpl.
    + rewrite Hs. simpl. split; [|split; [exact Hs|reflexivity]].
      apply Forall_app. split; [assumption|].
      apply Forall_cons; [now left|constructor].
    + split; [|split; [exact Hs|exact Hc]].
      apply Forall_app. split; [assumption|].
      apply Forall_cons; [now right|constructor].
Qed.

(** Rejected calls do not move the window. After a call that ran a failing
    operation and left the breaker OPEN, any number of calls that are all
    rejected leave the breaker as that call left it; so the next call runs
    the operation exactly when [time.Since] of the time read after that
    failure is greater than the timeout, however many calls were rejected
    in between. *)
Theorem rejections_keep_the_window cb fn w (script : list (Step U)) w' e :
  invokes cb w = true ->
  fst (fn w) = Returned (Some e) ->
  state (breaker (Call cb fn w)) = OPEN ->
  Forall (fun v => v = Rejection)
         (verdicts (run (breaker (Call cb fn w)) (world (Call cb fn w)) script)) ->
  current (run (breaker (Call cb fn w)) (world (Call cb fn w)) script)
  = breaker (Call cb fn w) /\
  (invokes (current (run (breaker (Call cb fn w)) (world (Call cb fn w)) script)) w'
   = true
   <-> Since w' (Now (world (Call cb fn w))) > timeout cb).
Proof.
  intros Hi Hn Ho Hrej.
  set (o := Call cb fn w) in *.
  assert (Hsame : current (run (breaker o) (world o) script) = breaker o).
  { induction script as [|stp script IH] using rev_ind; [reflexivity|].
    rewrite verdicts_snoc in Hrej. apply Forall_app in Hrej as [Hrej Hlast].
    apply Forall_inv in Hlast. specialize (IH Hrej).
    rewrite run_snoc, exec1_current.
    rewrite verdict_entry in Hlast.
    destruct (invokes (current (run (breaker o) (world o) script))
                      (fst stp (around (run (breaker o) (world o) script))))
      eqn:Hi'.
    - now destruct (ret _) as [[?|]|?].
    - destruct (not_invoked_rejected _ (snd stp) _ Hi') as [_ ->]. exact IH. }
  split; [exact Hsame|]. rewrite Hsame.
  assert (Hl : lastFailure (breaker o) = Now (world o)).
  { subst o. pose proof Hi as Hi2. apply invokes_proceed in Hi2 as [cb1 Hg].
    rewrite (Call_returned _ fn _ Hg Hn). cbn [breaker world].
    now rewrite settle_lastFailure. }
  destruct (Call_config cb fn w) as [_ Hto]. fold o in Hto.
  unfold invokes, gate. rewrite Ho, Hl, Hto.
  set (d := Since w' (Now (world o))).
  destruct (Z.gtb_spec d (timeout cb)); simpl.
  - split; [lia|reflexivity].
  - split; [discriminate|lia].
Qed.

End CallFrame.

(** ** More about the goroutines *)

Section MoreGoroutines.

Context {U : Type}.
Implicit Types (s : System U) (a : Action U) (p : nat -> Pc U).

Lemma fire_all_app (l1 l2 : list (Action U)) : forall s,
  fire_all s (l1 ++ l2) =
  match fire_all s l1 with
  | Some s1 => fire_all s1 l2
  | None => None
  end.
Proof.
  induction l1 as [|a l1 IH]; intros s; simpl; [reflexivity|].
  destruct (fire s a); [apply IH|reflexivity].
Qed.

Lemma solo_fire_all n : forall i s s',
  solo n i s = Some s' ->
  exists k, fire_all s (repeat (Run i) k) = Some s'.
Proof.
  induction n as [|n IH]; intros i s s' H.
  - exists O. simpl in *. destruct (pcs s i); try discriminate. exact H.
  - cbn [solo] in H.
    assert (Hcase : (exists r, pcs s i = Done r) \/
                    match fire s (Run i) with
                    | Some s1 => solo n i s1 = Some s'
                    | None => False
                    end).
    { destruct (pcs s i) eqn:Hpc; try (right; destruct (fire s (Run i));
        [exact H|discriminate]).
      left. now eexists. }
    destruct Hcase as [[r Hr]|Hstep].
    + exists O. rewrite Hr in H. exact H.
    + destruct (fire s (Run i)) as [s1|] eqn:Hf; [|destruct Hstep].
      destruct (IH i s1 s' Hstep) as [k Hk]. exists (S k).
      cbn [repeat fire_all]. now rewrite Hf.
Qed.

Lemma held_fire s a s' :
  held_by_someone s -> fire s a = Some s' -> held_by_someone s'.
Proof.
  unfold held_by_someone. intros Hh Hf. destruct a as [i|i fn|f]; simpl in Hf.
  - destruct (pcs s i) as [|fn|fn|fn|fn|err|r|r] eqn:Hpc; try discriminate.
    + destruct (locked s); [discriminate|]. injection Hf as <-. simpl.
      intros _. exists i. now rewrite upd_same.
    + destruct (gate (shared s) (sworld s)); injection Hf as <-; simpl;
        intros _; exists i; now rewrite upd_same.
    + injection Hf as <-. simpl. intros _. exists i. now rewrite upd_same.
    + destruct (fn (sworld s)) as [[err|v] w2]; injection Hf as <-; simpl;
        intros _; exists i; now rewrite upd_same.
    + destruct (settle (shared s) err (sworld s)). injection Hf as <-. simpl.
      intros _. exists i. now rewrite upd_same.
    + injection Hf as <-. simpl. discriminate.
  - destruct (pcs s i) eqn:Hpc; try discriminate. injection Hf as <-. simpl.
    intros Hl. destruct (Hh Hl) as [j Hj]. exists j.
    assert (j <> i) by (intros ->; rewrite Hpc in Hj; discriminate).
    now rewrite upd_other.
  - injection Hf as <-. exact Hh.
Qed.

Lemma held_fire_all sched : forall s s',
  held_by_someone s -> fire_all s sched = Some s' -> held_by_someone s'.
Proof.
  induction sched as [|a sched IH]; simpl; intros s s' Hh Hf.
  - now injection Hf as <-.
  - destruct (fire s a) as [s1|] eqn:Ha; [|discriminate].
    apply (IH s1); [now apply (held_fire a Hh)|assumption].
Qed.

(** The goroutine that holds the mutex, run on its own, returns from its
    call and releases the mutex; the other goroutines stay where they are. *)
Lemma solo_holder s j :
  holding (pcs s j) = true ->
  exists s1,
    solo 6 j s = Some s1 /\
    locked s1 = false /\
    (exists r, pcs s1 j = Done r) /\
    (forall k, k <> j -> pcs s1 k = pcs s k).
Proof.
  assert (Hunlock : forall n s0 r, pcs s0 j = AtUnlock r ->
            exists s1, solo (S n) j s0 = Some s1 /\ locked s1 = false /\
                       (exists r, pcs s1 j = Done r) /\
                       (forall k, k <> j -> pcs s1 k = pcs s0 k)).
  { intros n s0 r Hpc. rewrite solo_step, Hpc. cbn [fire]. rewrite Hpc.
    eexists. split; [apply (solo_done _ _ _ (r := r)); cbn [pcs]; apply upd_same|].
    cbn [locked pcs]. split; [reflexivity|].
    split; [exists r; apply upd_same|]. intros k Hk. now apply upd_other. }
  assert (Hpanic : forall n s0 r, pcs s0 j = AtUnlock r ->
            exists s1, solo (S (S n)) j s0 = Some s1 /\ locked s1 = false /\
                       (exists r, pcs s1 j = Done r) /\
                       (forall k, k <> j -> pcs s1 k = pcs s0 k)).
  { intros n s0 r Hpc. apply (Hunlock (S n) s0 r Hpc). }
  assert (Hsettle : forall n s0 err, pcs s0 j = AtSettle err ->
            exists s1, solo (S (S n)) j s0 = Some s1 /\ locked s1 = false /\
                       (exists r, pcs s1 j = Done r) /\
                       (forall k, k <> j -> pcs s1 k = pcs s0 k)).
  { intros n s0 err Hpc. rewrite solo_step, Hpc. cbn [fire]. rewrite Hpc.
    destruct (settle (shared s0) err (sworld s0)) as [cb2 r].
    edestruct (Hunlock n) as (s1 & H1 & H2 & H3 & H4);
      [|exists s1; split; [exact H1|]].
    - cbn [pcs]. apply upd_same.
    - split; [exact H2|]. split; [exact H3|].
      intros k Hk. rewrite (H4 k Hk). cbn [pcs]. now apply upd_other. }
  assert (Hinfn : forall n s0 fn, pcs s0 j = InFn fn ->
            exists s1, solo (S (S (S n))) j s0 = Some s1 /\ locked s1 = false /\
                       (exists r, pcs s1 j = Done r) /\
                       (forall k, k <> j -> pcs s1 k = pcs s0 k)).
  { intros n s0 fn Hpc. rewrite solo_step, Hpc. cbn [fire]. rewrite Hpc.
    destruct (fn (sworld s0)) as [[err|v] w2].
    - edestruct (Hsettle n) as (s1 & H1 & H2 & H3 & H4);
        [|exists s1; split; [exact H1|]].
      + cbn [pcs]. apply upd_same.
      + split; [exact H2|]. split; [exact H3|].
        intros k Hk. rewrite (H4 k Hk). cbn [pcs]. now apply upd_other.
    - edestruct (Hpanic n) as (s1 & H1 & H2 & H3 & H4);
        [|exists s1; split; [exact H1|]].
      + cbn [pcs]. apply upd_same.
      + split; [exact H2|]. split; [exact H3|].
        intros k Hk. rewrite (H4 k Hk). cbn [pcs]. now apply upd_other. }
  assert (Hinv : forall n s0 fn, pcs s0 j = AtInvoke fn ->
            exists s1, solo (S (S (S (S n)))) j s0 = Some s1 /\ locked s1 = false /\
                       (exists r, pcs s1 j = Done r) /\
                       (forall k, k <> j -> pcs s1 k = pcs s0 k)).
  { intros n s0 fn Hpc. rewrite solo_step, Hpc. cbn [fire]. rewrite Hpc.
    edestruct (Hinfn n) as (s1 & H1 & H2 & H3 & H4);
      [|exists s1; split; [exact H1|]].
    - cbn [pcs]. apply upd_same.
    - split; [exact H2|]. split; [exact H3|].
      intros k Hk. rewrite (H4 k Hk). cbn [pcs]. now apply upd_other. }
  intros Hh.
  destruct (pcs s j) as [|fn|fn|fn|fn|err|r|r] eqn:Hpc; try discriminate.
  - (* at the gate *)
    rewrite solo_step, Hpc. cbn [fire]. rewrite Hpc.
    destruct (gate (shared s) (sworld s)) as [e w'|cb1 w1].
    + edestruct (Hunlock 4%nat) as (s1 & H1 & H2 & H3 & H4);
        [|exists s1; split; [exact H1|]].
      * cbn [pcs]. apply upd_same.
      * split; [exact H2|]. split; [exact H3|].
        intros k Hk. rewrite (H4 k Hk). cbn [pcs]. now apply upd_other.
    + edestruct (Hinv 1%nat) as (s1 & H1 & H2 & H3 & H4);
        [|exists s1; split; [exact H1|]].
      * cbn [pcs]. apply upd_same.
      * split; [exact H2|]. split; [exact H3|].
        intros k Hk. rewrite (H4 k Hk). cbn [pcs]. now apply upd_other.
  - apply (Hinv 2%nat s fn Hpc).
  - apply (Hinfn 3%nat s fn Hpc).
  - apply (Hsettle 4%nat s err Hpc).
  - apply (Hunlock 5%nat s r Hpc).
Qed.

(** No deadlock. However the goroutines were scheduled so far, also when
    operations have panicked, a goroutine that waits for the mutex can be
    scheduled so that its call comes to its end: the holder of the mutex,
    if there is one, runs to its deferred [Unlock], and then the call runs.
    (The operations are functions here: each of them ends, by returning or
    by panicking.) *)
Theorem every_call_can_finish cb (fns : list (Operation U)) (w : World U)
        sched s i fn :
  fire_all (spawn cb fns w) sched = Some s ->
  pcs s i = AtLock fn ->
  exists more s' r, fire_all s more = Some s' /\ pcs s' i = Done r.
Proof.
  intros Hf Hpc.
  assert (Hheld : held_by_someone s).
  { apply (held_fire_all sched (s := spawn cb fns w)); [|exact Hf].
    unfold held_by_someone. simpl. discriminate. }
  assert (Hfree : exists pre s1, fire_all s pre = Some s1 /\
                                 locked s1 = false /\ pcs s1 i = AtLock fn).
  { destruct (locked s) eqn:Hl.
    - destruct (Hheld Hl) as [j Hj].
      destruct (solo_holder s j Hj) as (s1 & H1 & H2 & _ & H4).
      destruct (solo_fire_all _ _ _ H1) as [k Hk].
      exists (repeat (Run j) k), s1. repeat split; trivial.
      rewrite H4; [exact Hpc|]. intros ->. rewrite Hpc in Hj. discriminate.
    - exists [], s. now repeat split. }
  destruct Hfree as (pre & s1 & Hpre & Hl1 & Hpc1).
  destruct (solo_is_Call s1 i Hpc1 Hl1) as (s2 & H2 & Hd & _).
  destruct (solo_fire_all _ _ _ H2) as [k Hk].
  exists (pre ++ repeat (Run i) k), s2, (ret (Call (shared s1) fn (sworld s1))).
  split; [|exact Hd]. rewrite fire_all_app, Hpre. exact Hk.
Qed.

Lemma linear_same cb0 (w0 : World U) s s' :
  shared s' = shared s ->
  (forall j, probing (pcs s' j) = probing (pcs s j)) ->
  linear cb0 w0 s -> linear cb0 w0 s'.
Proof.
  intros Hsh Hp (script & Ha & Hb). exists script. rewrite Hsh. split.
  - intros Hn. apply Ha. intros j. rewrite <- Hp. apply Hn.
  - intros j Hj. apply (Hb j). now rewrite <- Hp.
Qed.

Lemma probing_upd p i (x : Pc U) :
  probing x = probing (p i) ->
  forall j, probing (upd p i x j) = probing (p j).
Proof.
  intros Hx j. unfold upd. now destruct (Nat.eqb_spec j i) as [->|_].
Qed.

Lemma linear_fire cb0 (w0 : World U) s a s' :
  exclusive s -> linear cb0 w0 s -> fire s a = Some s' -> linear cb0 w0 s'.
Proof.
  intros Hex Hlin Hf. destruct a as [i|i fn|f]; simpl in Hf.
  - destruct (pcs s i) as [|fn|fn|fn|fn|err|r|r] eqn:Hpc; try discriminate.
    + destruct (locked s); [discriminate|]. injection Hf as <-.
      apply (linear_same (s := s)); trivial.
      apply probing_upd. now rewrite Hpc.
    + (* the gate *)
      assert (Hnone : forall j, probing (pcs s j) = false).
      { intros j. destruct (probing (pcs s j)) eqn:Hj; trivial.
        destruct Hex as (_ & Huniq & _).
        assert (j = i)
          by (apply Huniq; [now apply probing_holding|now rewrite Hpc]).
        subst j. rewrite Hpc in Hj. discriminate. }
      destruct (gate (shared s) (sworld s)) as [e w'|cb1 w1] eqn:Hg;
        injection Hf as <-.
      * apply (linear_same (s := s)); trivial.
        apply probing_upd. now rewrite Hpc.
      * destruct Hlin as (script & Ha & _). exists script. simpl. split.
        -- intros Hn. specialize (Hn i). rewrite upd_same in Hn. discriminate.
        -- intros _ _. exists (sworld s). rewrite <- (Ha Hnone).
           pose proof (gate_world _ _ Hg) as ->. exact Hg.
    + injection Hf as <-. apply (linear_same (s := s)); trivial.
      apply probing_upd. now rewrite Hpc.
    + (* the operation ends *)
      destruct (fn (sworld s)) as [[err|v] w2] eqn:Hfn; injection Hf as <-.
      * apply (linear_same (s := s)); trivial.
        apply probing_upd. now rewrite Hpc.
      * destruct Hlin as (script & _ & Hb).
        destruct (Hb i) as [wg Hg]; [now rewrite Hpc|].
        set (stp := ((fun _ => wg, fun _ => (Panicked v, w2)) : Step U)).
        exists (script ++ [stp]).
        assert (Hc : current (run cb0 w0 (script ++ [stp])) = shared s).
        { rewrite run_snoc, exec1_current. subst stp. simpl fst; simpl snd.
          now rewrite (Call_proceed _ (fun _ => (Panicked v, w2)) _ Hg). }
        rewrite Hc. simpl. split; [reflexivity|].
        intros j Hj. exfalso.
        destruct (Nat.eq_dec j i) as [->|Hne].
        -- rewrite upd_same in Hj. discriminate.
        -- rewrite upd_other in Hj by assumption.
           destruct Hex as (_ & Huniq & _). apply Hne.
           apply Huniq; [now apply probing_holding|now rewrite Hpc].
    + (* the bookkeeping *)
      destruct (settle (shared s) err (sworld s)) as [cb2 r] eqn:Hst.
      injection Hf as <-.
      destruct Hlin as (script & _ & Hb).
      destruct (Hb i) as [wg Hg]; [now rewrite Hpc|].
      set (stp := ((fun _ => wg, fun _ => (Returned err, sworld s)) : Step U)).
      exists (script ++ [stp]).
      assert (Hc : current (run cb0 w0 (script ++ [stp])) = cb2).
      { rewrite run_snoc, exec1_current. subst stp. simpl fst; simpl snd.
        rewrite (Call_proceed _ (fun _ => (Returned err, sworld s)) _ Hg). simpl.
        now rewrite Hst. }
      rewrite Hc. simpl. split; [reflexivity|].
      intros j Hj. exfalso.
      destruct (Nat.eq_dec j i) as [->|Hne].
      * rewrite upd_same in Hj. discriminate.
      * rewrite upd_other in Hj by assumption.
        destruct Hex as (_ & Huniq & _). apply Hne.
        apply Huniq; [now apply probing_holding|now rewrite Hpc].
    + injection Hf as <-. apply (linear_same (s := s)); trivial.
      apply probing_upd. now rewrite Hpc.
  - destruct (pcs s i) eqn:Hpc; try discriminate. injection Hf as <-.
    apply (linear_same (s := s)); trivial.
    apply probing_upd. now rewrite Hpc.
  - injection Hf as <-. now apply (linear_same (s := s)).
Qed.

Lemma linear_fire_all cb0 (w0 : World U) sched : forall s s',
  exclusive s -> linear cb0 w0 s -> fire_all s sched = Some s' ->
  linear cb0 w0 s'.
Proof.
  induction sched as [|a sched IH]; simpl; intros s s' Hex Hlin Hf.
  - now injection Hf as <-.
  - destruct (fire s a) as [s1|] eqn:Ha; [|discriminate].
    apply (IH s1); trivial.
    + now apply (exclusive_fire a Hex).
    + eapply linear_fire; eassumption.
Qed.

(** The mutex makes [Call] atomic. Whatever the schedule of the goroutines,
    also when operations panic, whenever no goroutine is between the gate
    and the bookkeeping of its call (in particular whenever the mutex is
    free), the breaker is one that a history of calls made one after the
    other arrives at. So what holds after every such history holds of the
    shared breaker: on a new breaker the failure count stays within its
    bounds. *)
Theorem concurrent_calls_are_sequential cb (fns : list (Operation U))
        (w : World U) sched s :
  state cb <> HALF_OPEN ->
  fire_all (spawn cb fns w) sched = Some s ->
  (forall j, probing (pcs s j) = false) ->
  (exists script : list (Step U), shared s = current (run cb w script)) /\
  (forall th t, cb = NewCircuitBreaker th t -> th <= max_int64 ->
                failureThreshold (shared s) = th /\
                0 <= failureCount (shared s) <= Z.max th 1).
Proof.
  intros Hcb Hf Hq.
  assert (Hlin : linear cb w s).
  { apply (linear_fire_all sched (s := spawn cb fns w)); trivial.
    - now apply exclusive_spawn.
    - exists []. split; [reflexivity|]. intros j Hj. simpl in Hj.
      destruct (nth_error fns j); discriminate. }
  destruct Hlin as (script & Ha & _). specialize (Ha Hq). split.
  - now exists script.
  - intros th t -> Hmax. rewrite Ha.
    destruct (within_run t w script Hmax) as (H1 & H2 & _). now split.
Qed.

End MoreGoroutines.

(** ** The text of a state *)

(** [String] gives the three states three different texts, and gives the
    text of the unknown state to the integers that are no state, and to no
    others. *)
Theorem state_texts_distinct :
  (forall a b : CircuitState,
      CircuitState_String (code a) = CircuitState_String (code b) -> a = b) /\
  (forall n : Z,
      CircuitState_String n = CircuitState_String (-1) <-> n < 0 \/ 2 < n) /\
  (forall a : CircuitState,
      CircuitState_String (code a) <> CircuitState_String (-1)).
Proof.
  split; [|split].
  - intros [] []; simpl; intros H; try reflexivity; discriminate H.
  - intros n. unfold CircuitState_String. simpl code.
    destruct (Z.eqb_spec n 0) as [->|H0]; [split; [discriminate|lia]|].
    destruct (Z.eqb_spec n 1) as [->|H1]; [split; [discriminate|lia]|].
    destruct (Z.eqb_spec n 2) as [->|H2]; [split; [discriminate|lia]|].
    split; [lia|reflexivity].
  - intros []; discriminate.
Qed.

(** ** The demonstrations *)

Module RunFacts.

Import Run.

Local Unset Implicit Arguments.

Lemma fold_invariant (A : Type) (I : nat -> A -> Prop) (body : nat -> A -> A)
      (n : nat) : forall (first : nat) (a : A),
  I first a ->
  (forall i x, (first <= i < first + n)%nat -> I i x -> I (S i) (body i x)) ->
  I (first + n)%nat (fold_left (fun acc i => body i acc) (seq first n) a).
Proof.
  induction n as [|n IH]; intros first a H0 Hstep; simpl.
  - now rewrite Nat.add_0_r.
  - rewrite <- Nat.add_succ_comm. apply IH.
    + apply Hstep; [lia|assumption].
    + intros i x Hi. apply Hstep. lia.
Qed.

Lemma for_each_invariant (I : nat -> Tally * W -> Prop) first last body tw :
  (first <= S last)%nat ->
  I first tw ->
  (forall i x, (first <= i <= last)%nat -> I i x ->
               exists y, body i x = Some y /\ I (S i) y) ->
  exists y, for_each first last body tw = Some y /\ I (S last) y.
Proof.
  intros Hle H0 Hstep. unfold for_each.
  pose proof (@fold_invariant (option (Tally * W))
                (fun i acc => exists y, acc = Some y /\ I i y)
                (fun i acc => match acc with Some x => body i x | None => None end)
                (S last - first) first (Some tw)) as H.
  replace (first + (S last - first))%nat with (S last) in H by lia.
  apply H.
  - now exists tw.
  - intros i acc Hi (x & -> & Hx). apply Hstep; [lia|exact Hx].
Qed.

Lemma closed_request_step i k w :
  exists w',
    runClosedStateDemo_request i (mkTally new5 k 0 0, w)
    = Some (mkTally new5 (wrap64 (k + 1)) 0 0, w').
Proof. eexists. reflexivity. Qed.

(** [runClosedStateDemo], whatever the clock and the scheduler do: it runs
    to its end, the ten requests all succeed, none fails, the breaker is as
    new (CLOSED, failure count 0), and the last two lines printed are the
    results "10 successful, 0 failed" and the line that says the circuit
    remained CLOSED. *)
Theorem closed_demo_all_succeed (w : W) :
  exists t w',
    runClosedStateDemo w = Some (t, w') /\
    successful t = 10 /\
    failed_calls t = 0 /\
    cb_of t = NewCircuitBreaker 3 (5 * Second) /\
    exists before,
      stdout (user w') =
        ("🔧 Circuit remained CLOSED - all requests processed" ++ nl)%string
        :: (nl ++ "📊 Results: 10 successful, 0 failed" ++ nl)%string
        :: before.
Proof.
  unfold runClosedStateDemo.
  set (w3 := Println "" _).
  destruct (for_each_invariant
              (fun i tw => fst tw = mkTally new5 (Z.of_nat i - 1) 0 0)
              1 10 runClosedStateDemo_request (mkTally new5 0 0 0, w3))
    as ([t w4] & Hrun & Ht); [lia|reflexivity| |].
  { intros i [t w'] Hi Ht. cbn [fst] in Ht. subst t.
    destruct (closed_request_step i (Z.of_nat i - 1) w') as [w'' ->].
    eexists. split; [reflexivity|]. cbn [fst].
    rewrite wrap64_small
      by (unfold in_int64, min_int64, max_int64; lia).
    f_equal. lia. }
  change (NewCircuitBreaker 3 (5 * Second)) with new5.
  rewrite Hrun. cbn [fst] in Ht. subst t.
  eexists. eexists. split; [reflexivity|].
  repeat split. eexists. reflexivity.
Qed.

(** *** Time *)

Lemma clock_pass w :
  clock (pass w) = clock w + Z.of_N (delays (user w) (waited (user w))).
Proof. reflexivity. Qed.

Lemma pass_later w : clock w <= clock (pass w).
Proof. rewrite clock_pass. lia. Qed.

Lemma Print_later s w : clock w <= clock (Print s w).
Proof. unfold Print. rewrite clock_pass. simpl. lia. Qed.

Lemma Sleep_later d w : clock w + d <= clock (time_Sleep d w).
Proof. unfold time_Sleep. rewrite clock_pass. simpl. lia. Qed.

Lemma Print_calm D s w :
  calm D w -> calm D (Print s w) /\ clock (Print s w) <= clock w + D.
Proof.
  intros Hc. split; [exact Hc|].
  unfold Print. rewrite clock_pass. simpl. specialize (Hc (waited (user w))). lia.
Qed.

Lemma Sleep_calm D d w :
  0 <= d -> calm D w ->
  calm D (time_Sleep d w) /\ clock (time_Sleep d w) <= clock w + d + D.
Proof.
  intros Hd Hc. split; [exact Hc|].
  unfold time_Sleep. rewrite clock_pass. simpl.
  specialize (Hc (waited (user w))). lia.
Qed.

(** [time.Since] is the difference of the readings while the difference
    fits a [Duration]. *)
Lemma subMono_diff t u :
  0 <= t - u <= max_int64 -> subMono t u = t - u.
Proof.
  intros H. unfold subMono.
  rewrite wrap64_small by (unfold in_int64, min_int64, max_int64 in *; lia).
  destruct (Z.ltb_spec (t - u) 0); [lia|]. simpl.
  destruct (Z.ltb_spec t u); [lia|]. now rewrite andb_false_r.
Qed.


(** *** Calls of the demonstrations *)

Lemma trip3 text t0 w :
  for_each 1 3 (trip_request text) (mkTally (NewCircuitBreaker 3 t0) 0 0 0, w)
  = Some (mkTally (mkCircuitBreaker OPEN 3 (At (clock w)) 3 t0) 0 0 0,
          mkWorld (clock w) (N.succ (N.succ (N.succ (heap w)))) (user w)).
Proof. reflexivity. Qed.

(** A call whose operation returns: [Call] returns what [call] gives, and
    the counters are as they were. *)
Lemma call_returned fn t w :
  (forall x, exists err, fst (fn x) = Returned err) ->
  exists err,
    ret (Call (cb_of t) fn w) = Returned err /\
    call fn t w
    = Some (err,
            mkTally (breaker (Call (cb_of t) fn w))
                    (successful t) (failed_calls t) (blocked t),
            world (Call (cb_of t) fn w)).
Proof.
  intros Hfn. unfold call.
  destruct (ret (Call (cb_of t) fn w)) as [err|v] eqn:Hret.
  - now exists err.
  - destruct (Call_panic (cb_of t) fn w Hret) as (_ & Hp & _).
    destruct (Hfn w) as [err He]. congruence.
Qed.

Lemma healthy_returns :
  forall x : W, exists err,
    fst ((fun w => simulateHealthyService w) x) = Returned err.
Proof. intros x. now exists None. Qed.

(** A call with the healthy service: either it ran the service, returned
    [nil] and left the breaker CLOSED with failure count 0, after the 50ms
    of the service; or the breaker was OPEN within its timeout, and the call
    was rejected at once. *)
Lemma call_healthy t w :
  exists err t' w',
    call (fun w => simulateHealthyService w) t w = Some (err, t', w') /\
    (successful t' = successful t /\ failed_calls t' = failed_calls t /\
     blocked t' = blocked t) /\
    ((err = None /\
      state (cb_of t') = CLOSED /\ failureCount (cb_of t') = 0 /\
      lastFailure (cb_of t') = lastFailure (cb_of t) /\
      failureThreshold (cb_of t') = failureThreshold (cb_of t) /\
      timeout (cb_of t') = timeout (cb_of t) /\
      w' = time_Sleep (50 * Millisecond) w /\
      (state (cb_of t) = OPEN ->
       Since w (lastFailure (cb_of t)) > timeout (cb_of t)))
     \/
     (state (cb_of t) = OPEN /\
      Since w (lastFailure (cb_of t)) <= timeout (cb_of t) /\
      (exists e, err = Some e /\ Error e = open_text) /\
      cb_of t' = cb_of t /\
      clock w' = clock w /\ user w' = user w)).
Proof.
  unfold call, Call, gate. destruct t as [cb s f b]. cbn [cb_of successful failed_calls blocked].
  destruct (state cb) eqn:Hs.
  - eexists. eexists. eexists. split; [reflexivity|]. split; [now repeat split|].
    left. simpl. rewrite Hs. simpl. repeat split; trivial. discriminate.
  - destruct (Z.gtb_spec (Since w (lastFailure cb)) (timeout cb)) as [Hgt|Hle].
    + eexists. eexists. eexists. split; [reflexivity|].
      split; [now repeat split|].
      left. simpl. repeat split; trivial. lia.
    + eexists. eexists. eexists. split; [reflexivity|].
      split; [now repeat split|].
      right. simpl. repeat split; trivial.
      eexists. split; reflexivity.
  - eexists. eexists. eexists. split; [reflexivity|]. split; [now repeat split|].
    left. simpl. rewrite Hs. simpl. repeat split; trivial. discriminate.
Qed.

Lemma count_small k : 0 <= k < 1000 -> wrap64 (k + 1) = k + 1.
Proof.
  intros H. apply wrap64_small. unfold in_int64, min_int64, max_int64. lia.
Qed.

Lemma open_request_step i k t w :
  0 <= k < 1000 -> open_tally k t ->
  exists y, runOpenStateDemo_request i (t, w) = Some y /\
            open_tally (k + 1) (fst y).
Proof.
  intros Hk (Hf & Hs0 & Hb0 & Hsum & Hst).
  unfold runOpenStateDemo_request.
  set (w1 := Print _ w).
  destruct (call_healthy t w1)
    as (err & t' & w' & -> & (Hs' & Hf' & Hb') & Hcase).
  destruct Hcase as [(-> & Hst' & _)|(Ho & _ & (e & -> & He) & Hcb & _)].
  - (* the service ran *)
    eexists. split; [reflexivity|].
    unfold open_tally. simpl. rewrite Hs', Hf', Hb'.
    rewrite count_small by lia.
    repeat split; try lia. right. split; [assumption|lia].
  - (* rejected *)
    unfold open_text in He. rewrite He.
    eexists. split; [reflexivity|].
    unfold open_tally. simpl. rewrite Hs', Hf', Hb', Hcb.
    rewrite count_small by lia.
    destruct Hst as [[_ Hz]|[Hc _]]; [|congruence].
    repeat split; try lia. left. split; [assumption|lia].
Qed.

Lemma open_loop (tw : Tally * W) :
  open_tally 0 (fst tw) ->
  exists y, for_each 1 8 runOpenStateDemo_request tw = Some y /\
            open_tally 8 (fst y).
Proof.
  intros H0.
  apply (for_each_invariant
           (fun i tw => open_tally (Z.of_nat i - 1) (fst tw))); [lia|exact H0|].
  intros i [t w'] Hi Ht. cbn [fst] in Ht.
  replace (Z.of_nat (S i) - 1) with (Z.of_nat i - 1 + 1) by lia.
  apply open_request_step; [lia|assumption].
Qed.

(** [runOpenStateDemo], whatever the clock and the scheduler do. It runs to
    its end. None of the eight requests fails; each is blocked or
    successful; the blocked ones come first, for once a request has got
    through the breaker is CLOSED and stays so. The breaker is OPEN at the
    end exactly when all eight were blocked. The last line but one printed
    reports these counts. *)
Theorem open_demo_blocks_or_recovers (w : W) :
  exists t w',
    runOpenStateDemo w = Some (t, w') /\
    failed_calls t = 0 /\
    0 <= successful t /\
    0 <= blocked t /\
    successful t + blocked t = 8 /\
    (state (cb_of t) = OPEN /\ blocked t = 8
     \/
     state (cb_of t) = CLOSED /\ 0 < successful t) /\
    exists last before,
      stdout (user w') =
        last
        :: (nl ++ "📊 Results: "
               ++ itoa (successful t) ++ " successful, "
               ++ "0 failed, "
               ++ itoa (blocked t) ++ " blocked" ++ nl)%string
        :: before.
Proof.
  unfold runOpenStateDemo. rewrite trip3.
  match goal with
  | |- context [for_each 1 8 runOpenStateDemo_request ?x] =>
      destruct (open_loop x) as ([t w6] & -> & H)
  end.
  { unfold open_tally. simpl. repeat split; try lia. left. now split. }
  cbn [fst snd] in *.
  destruct H as (Hf & Hs0 & Hb0 & Hsum & Hst).
  eexists. eexists. split; [reflexivity|].
  split; [assumption|]. split; [assumption|]. split; [assumption|].
  split; [assumption|]. split.
  - destruct Hst as [[Ho Hz]|[Hc Hp]]; [left|right]; split; trivial. lia.
  - rewrite Hf. eexists. eexists. reflexivity.
Qed.

Lemma open_request_quick lf i tw :
  (1 <= i <= 8)%nat ->
  all_blocked lf i tw ->
  exists y, runOpenStateDemo_request i tw = Some y /\
            all_blocked lf (S i) y.
Proof.
  intros Hi (Hcb & Hs & Hf & Hb & Hclk & Hcalm). destruct tw as [t w].
  cbn [fst snd] in *.
  unfold runOpenStateDemo_request.
  set (w1 := Print _ w).
  destruct (@Print_calm (150 * Millisecond) ("Request " ++ itoa (Z.of_nat i) ++ ": ") w Hcalm)
    as [Hcalm1 Hup1].
  pose proof (Print_later ("Request " ++ itoa (Z.of_nat i) ++ ": ") w) as Hlo1.
  fold w1 in Hcalm1, Hup1, Hlo1.
  destruct (call_healthy t w1)
    as (err & t' & w' & -> & (Hs' & Hf' & Hb') & Hcase).
  assert (Hsince : Since w1 (lastFailure (cb_of t)) <= timeout (cb_of t)).
  { rewrite Hcb. cbn [lastFailure timeout]. unfold Since, Time_Sub.
    rewrite subMono_diff; unfold max_int64, Millisecond, Second in *; lia. }
  destruct Hcase as [(_ & _ & _ & _ & _ & _ & _ & Hgt)
                    |(_ & _ & (e & -> & He) & Hcb' & Hclk' & Hu')].
  { rewrite Hcb in Hgt at 1. specialize (Hgt eq_refl). lia. }
  unfold open_text in He. rewrite He. cbn [String.eqb Ascii.eqb Bool.eqb].
  eexists. split; [reflexivity|].
  cbn [fst snd].
  set (w2 := Print _ w').
  assert (Hcalm' : forall k, Z.of_N (delays (user w') k) <= 150 * Millisecond)
    by (rewrite Hu'; exact Hcalm1).
  match goal with
  | w2 := Print ?s w' |- _ =>
      destruct (@Print_calm (150 * Millisecond) s w' Hcalm') as [Hcalm2 Hup2];
      pose proof (Print_later s w') as Hlo2
  end.
  fold w2 in Hcalm2, Hup2, Hlo2.
  assert (H200 : 0 <= 200 * Millisecond) by (unfold Millisecond; lia).
  destruct (@Sleep_calm (150 * Millisecond) (200 * Millisecond) w2 H200 Hcalm2)
    as [Hcalm3 Hup3].
  pose proof (Sleep_later (200 * Millisecond) w2) as Hlo3.
  unfold all_blocked. cbn [fst snd cb_of successful failed_calls blocked count_blocked].
  rewrite Hcb', Hs', Hf', Hb', Hb.
  rewrite count_small by lia.
  split; [exact Hcb|]. split; [exact Hs|]. split; [exact Hf|].
  split; [lia|]. split; [|exact Hcalm3].
  unfold Millisecond in *. lia.
Qed.

(** [runOpenStateDemo] when the scheduler never adds more than 150ms: the
    eight requests are all blocked (they are made within 4.7s of the third
    failure, and the timeout is 5s), the breaker stays OPEN as the third
    failure left it, and the results printed are
    "0 successful, 0 failed, 8 blocked". *)
Theorem open_demo_blocks_all (w : W) :
  calm (150 * Millisecond) w ->
  exists t w',
    runOpenStateDemo w = Some (t, w') /\
    successful t = 0 /\
    failed_calls t = 0 /\
    blocked t = 8 /\
    state (cb_of t) = OPEN /\
    failureCount (cb_of t) = 3 /\
    exists before,
      stdout (user w') =
        ("🛡️  Circuit breaker protected the failing service from 8 requests" ++ nl)%string
        :: (nl ++ "📊 Results: 0 successful, 0 failed, 8 blocked" ++ nl)%string
        :: before.
Proof.
  intros Hcalm.
  unfold runOpenStateDemo. rewrite trip3.
  match goal with
  | |- context [for_each 1 8 runOpenStateDemo_request ?x] =>
      destruct (for_each_invariant (all_blocked (clock (snd x)))
                  1 8 runOpenStateDemo_request x)
        as ([t w6] & -> & H)
  end.
  { lia. }
  { unfold all_blocked. cbn [fst snd cb_of successful failed_calls blocked clock user].
    repeat split; try lia. exact Hcalm. }
  { intros i x Hi. now apply open_request_quick. }
  destruct H as (Hcb & Hs & Hf & Hb & _). cbn [fst snd] in *.
  eexists. eexists. split; [reflexivity|].
  rewrite Hcb, Hs, Hf, Hb. cbn [state failureCount].
  repeat split. eexists. reflexivity.
Qed.

(** *** The clock only moves forward *)









Lemma for_each_later first last body tw y :
  (first <= S last)%nat ->
  (forall i x z, body i x = Some z -> clock (snd x) <= clock (snd z)) ->
  for_each first last body tw = Some y ->
  clock (snd tw) <= clock (snd y).
Proof.
  intros Hle Hbody. unfold for_each.
  pose proof (@fold_invariant (option (Tally * W))
                (fun _ acc => forall z, acc = Some z ->
                                        clock (snd tw) <= clock (snd z))
                (fun i acc => match acc with Some x => body i x | None => None end)
                (S last - first) first (Some tw)) as H.
  intros Hrun. apply H; trivial.
  - intros z [= <-]. apply Z.le_refl.
  - intros i [x|] _ Hx z Hz; [|discriminate].
    eapply Z.le_trans; [apply (Hx x eq_refl)|exact (Hbody i x z Hz)].
Qed.











(** *** The full lifecycle *)

Lemma full_healthy_step i k w :
  exists w',
    runFullLifecycleDemo_healthy i (mkTally new3 k 0 0, w)
    = Some (mkTally new3 (wrap64 (k + 1)) 0 0, w').
Proof. eexists. reflexivity. Qed.

(** A request of the second or third loop, with a service that returns:
    the request goes through, the breaker is the one [Call] leaves, and one
    of the three counters grows by one, the one that goes with what [Call]
    returned. *)
Lemma full_request_cases fn success pause i t w :
  (forall x, exists err, fst (fn x) = Returned err) ->
  exists r err,
    runFullLifecycleDemo_request fn success pause i (t, w) = Some r /\
    ret (Call (cb_of t) fn (Print ("Request " ++ itoa (Z.of_nat i) ++ ": ") w))
    = Returned err /\
    cb_of (fst r)
    = breaker (Call (cb_of t) fn
                    (Print ("Request " ++ itoa (Z.of_nat i) ++ ": ") w)) /\
    match err with
    | Some e =>
        if String.eqb (Error e) open_text
        then successful (fst r) = successful t /\
             failed_calls (fst r) = failed_calls t /\
             blocked (fst r) = wrap64 (blocked t + 1)
        else successful (fst r) = successful t /\
             failed_calls (fst r) = wrap64 (failed_calls t + 1) /\
             blocked (fst r) = blocked t
    | None =>
        successful (fst r) = wrap64 (successful t + 1) /\
        failed_calls (fst r) = failed_calls t /\
        blocked (fst r) = blocked t
    end.
Proof.
  intros Hfn. unfold runFullLifecycleDemo_request.
  set (w1 := Print _ w).
  destruct (call_returned fn t w1 Hfn) as (err & Hret & ->).
  destruct err as [e|];
    [unfold open_text; destruct (String.eqb (Error e) _) eqn:He|];
    eexists; eexists; (split; [reflexivity|]); (split; [exact Hret|]);
    cbn; rewrite ?He; repeat split.
Qed.

(** What the simulated services return. *)
Lemma failing_service_fails (w : W) :
  exists e, fst (simulateFailingService w) = Returned (Some e) /\
            Error e = "service unavailable"%string.
Proof. eexists. split; reflexivity. Qed.

Lemma failing_service_returns :
  forall x : W, exists err, fst (simulateFailingService x) = Returned err.
Proof. intros x. eexists. reflexivity. Qed.

Lemma recovering_service_returns :
  forall x : W, exists err, fst (simulateRecoveringService x) = Returned err.
Proof.
  intros x. unfold simulateRecoveringService, rand_below_0_7.
  destruct (draws _ _); eexists; reflexivity.
Qed.

Lemma degrading_step i t w :
  (6 <= i <= 10)%nat ->
  degrading i t ->
  exists r,
    runFullLifecycleDemo_request simulateFailingService "✅ Success"
      (300 * Millisecond) i (t, w) = Some r /\
    degrading (S i) (fst r).
Proof.
  intros Hi (Hs & Hb0 & Hsum & Hth & Hcase).
  destruct (full_request_cases simulateFailingService "✅ Success"
              (300 * Millisecond) i t w failing_service_returns)
    as (r & err & Hrun & Hreturned & Hcb & Hcount).
  exists r. split; [exact Hrun|]. clear Hrun.
  set (w1 := Print ("Request " ++ itoa (Z.of_nat i) ++ ": ") w) in *.
  set (fn := simulateFailingService) in *.
  destruct (Call_config (cb_of t) fn w1) as [Hth' _].
  destruct (failing_service_fails w1) as (e0 & He0 & Htext). fold fn in He0.
  unfold degrading. rewrite Hcb, Hth', Hth.
  destruct Hcase as [(Hle & Hst & Hc & Hbz)|(Hge & Hst & Hf3)].
  - (* CLOSED: the service runs and fails *)
    assert (Hm : failureThreshold (cb_of t) <= max_int64)
      by (rewrite Hth; unfold max_int64; lia).
    destruct (closed_call (cb_of t) fn w1 Hst ltac:(lia) Hm)
      as (_ & Hret & _ & Hnext).
    rewrite He0 in Hret, Hnext. destruct Hnext as [Hc' Hst'].
    rewrite Hret in Hreturned. injection Hreturned as <-.
    rewrite Htext in Hcount.
    cbn [String.eqb Ascii.eqb Bool.eqb open_text] in Hcount.
    destruct Hcount as (Hs' & Hf' & Hb').
    rewrite count_small in Hf' by lia.
    rewrite Hc', Hst', Hc, Hth.
    split; [congruence|]. split; [lia|]. split; [lia|]. split; [reflexivity|].
    destruct (Z.geb_spec (Z.of_nat i - 6 + 1) 3) as [Hge|Hlt].
    + right. repeat split; lia.
    + left. repeat split; lia.
  - (* OPEN: blocked, or a probe that fails *)
    assert (Hopen : state (breaker (Call (cb_of t) fn w1)) = OPEN).
    { exact (open_call_fails (cb_of t) fn w1 Hst He0). }
    rewrite Hopen.
    destruct err as [e|].
    + destruct (String.eqb (Error e) open_text);
        destruct Hcount as (Hs' & Hf' & Hb');
        rewrite count_small in * by lia;
        (split; [congruence|]); (split; [lia|]); (split; [lia|]);
        (split; [reflexivity|]); right; repeat split; trivial; lia.
    + exfalso.
      destruct (invokes (cb_of t) w1) eqn:Hi'.
      * rewrite (Call_ret_invoked (cb_of t) fn w1 Hi'), He0 in Hreturned.
        discriminate.
      * destruct (not_invoked_rejected _ fn _ Hi') as [Hr _].
        congruence.
Qed.

Lemma recovering_step fn success pause i t w :
  (forall x, exists err, fst (fn x) = Returned err) ->
  (1 <= i <= 100)%nat ->
  recovering i t ->
  exists r,
    runFullLifecycleDemo_request fn success pause i (t, w) = Some r /\
    recovering (S i) (fst r).
Proof.
  intros Hfn Hi (Hs & Hf & Hb & Hsum & Hst).
  destruct (full_request_cases fn success pause i t w Hfn)
    as (r & err & Hrun & Hret & Hcb & Hcount).
  exists r. split; [exact Hrun|].
  unfold recovering. rewrite Hcb.
  split; [|split; [|split; [|split; [|exact (Call_resolved _ _ _ Hret)]]]];
    destruct err as [e|]; try destruct (String.eqb _ _);
    destruct Hcount as (Hs' & Hf' & Hb');
    rewrite count_small in * by lia; lia.
Qed.

(** [runFullLifecycleDemo], whatever the clock, the scheduler and the random
    numbers do: it runs to its end, and the fifteen requests are all
    counted; at least the five requests to the healthy service were
    successful; at least three, the first three to the failing service,
    failed; and the breaker is CLOSED or OPEN at the end. *)
Theorem full_demo_counts (w : W) :
  exists t w',
    runFullLifecycleDemo w = Some (t, w') /\
    5 <= successful t /\
    3 <= failed_calls t /\
    0 <= blocked t /\
    successful t + failed_calls t + blocked t = 15 /\
    (state (cb_of t) = CLOSED \/ state (cb_of t) = OPEN).
Proof.
  unfold runFullLifecycleDemo.
  change (NewCircuitBreaker 3 (3 * Second)) with new3.
  match goal with
  | |- context [for_each 1 5 runFullLifecycleDemo_healthy ?x] =>
      destruct (for_each_invariant
                  (fun i tw => fst tw = mkTally new3 (Z.of_nat i - 1) 0 0)
                  1 5 runFullLifecycleDemo_healthy x)
        as ([t1 w1] & -> & H1); [lia|reflexivity| |]
  end.
  { intros i [t w'] Hi Ht. cbn [fst] in Ht. subst t.
    destruct (full_healthy_step i (Z.of_nat i - 1) w') as [w'' ->].
    eexists. split; [reflexivity|]. cbn [fst].
    rewrite count_small by lia. f_equal. lia. }
  cbn [fst] in H1. subst t1.
  match goal with
  | |- context [for_each 6 10 ?body ?x] =>
      destruct (for_each_invariant (fun i tw => degrading i (fst tw))
                  6 10 body x)
        as ([t2 w2] & -> & H2); [lia| | |]
  end.
  { unfold degrading. cbn. repeat split; try lia. left. repeat split; lia. }
  { intros i [t w'] Hi Ht. now apply degrading_step. }
  cbn [fst] in H2.
  match goal with
  | |- context [for_each 11 15 ?body ?x] =>
      destruct (for_each_invariant (fun i tw => recovering i (fst tw))
                  11 15 body x)
        as ([t3 w3] & -> & H3); [lia| | |]
  end.
  { destruct H2 as (Hs & Hb0 & Hsum & _ & Hcase).
    unfold recovering. cbn [fst].
    destruct Hcase as [(Hle & _)|(_ & Hst & Hf3)]; [lia|].
    repeat split; try lia. now right. }
  { intros i [t w'] Hi Ht.
    apply recovering_step; [exact recovering_service_returns|lia|assumption]. }
  cbn [fst snd] in *. destruct H3 as (Hs & Hf & Hb & Hsum & Hst).
  eexists. eexists. split; [reflexivity|].
  repeat split; trivial; lia.
Qed.

End RunFacts.

(** ** Further scenarios *)

Module MoreScenarios.

Import Demo MoreDemo.

Local Unset Implicit Arguments.
Local Open Scope string_scope.

Lemma nil_means_success_witness :
  ret (Call fresh3 healthy w0) = Returned None /\
  ret (Call fresh3 (crashing "boom") w0) = Panicked "boom".
Proof.
  split.
  - apply (proj2 (proj1 (nil_means_success fresh3 healthy w0))).
    split; reflexivity.
  - apply (proj2 (proj2 (nil_means_success fresh3 (crashing "boom") w0) "boom")).
    split; reflexivity.
Defined.

Lemma failure_count_bounded_witness :
  3 <= max_int64 /\
  0 <= failureCount
         (current (run fresh3 w0 [fail_now; fail_now; fail_now; fail_later]))
    <= 3.
Proof.
  assert (H : 3 <= max_int64) by (vm_compute; discriminate).
  split; [exact H|].
  apply (failure_count_bounded (th := 3) (5 * Second) w0
           [fail_now; fail_now; fail_now; fail_later] H).
Defined.

Lemma state_changes_on_evidence_witness :
  state (breaker (Call strained (failing "service unavailable") w0)) = OPEN /\
  invokes strained w0 = true /\
  exists e, fst (failing "service unavailable" w0) = Returned (Some e).
Proof.
  assert (H0 : state strained = CLOSED) by reflexivity.
  assert (H1 : state (breaker (Call strained (failing "service unavailable") w0))
               = OPEN) by reflexivity.
  split; [exact H1|].
  destruct (proj1 (state_changes_on_evidence strained
                     (failing "service unavailable") w0) H0 H1) as (Hi & Hn & _).
  split; [exact Hi|exact Hn].
Defined.

Lemma healthy_service_never_rejected_witness :
  state (current (run fresh3 w0 [succeed_now; succeed_later; succeed_now])) = CLOSED /\
  failureCount (current (run fresh3 w0 [succeed_now; succeed_later; succeed_now])) = 0.
Proof.
  apply (healthy_service_never_rejected 3 (5 * Second) w0
           [succeed_now; succeed_later; succeed_now]).
  vm_compute. repeat constructor; discriminate.
Defined.

Lemma rejections_keep_the_window_witness :
  current (run (breaker (Call strained (failing "service unavailable") w0))
               (world (Call strained (failing "service unavailable") w0))
               [succeed_now; fail_now; succeed_now])
  = breaker (Call strained (failing "service unavailable") w0).
Proof.
  apply (rejections_keep_the_window strained (failing "service unavailable") w0
           [succeed_now; fail_now; succeed_now] w_late
           (e := mkError errorString_type 0 "service unavailable")).
  - reflexivity.
  - reflexivity.
  - reflexivity.
  - vm_compute. repeat constructor.
Defined.

Lemma every_call_can_finish_witness :
  pcs three_probing 0%nat = AtLock healthy /\
  exists more s' r,
    fire_all three_probing more = Some s' /\ pcs s' 0%nat = Done r.
Proof.
  assert (H0 : fire_all (spawn tripped [healthy; healthy; healthy] w_late) sched1
               = Some three_probing) by reflexivity.
  assert (H1 : pcs three_probing 0%nat = AtLock healthy) by reflexivity.
  split; [exact H1|].
  apply (every_call_can_finish tripped [healthy; healthy; healthy] w_late sched1
           (s := three_probing) 0%nat (fn := healthy) H0 H1).
Defined.

Lemma concurrent_calls_are_sequential_witness :
  failureThreshold (shared two_done) = 3 /\
  0 <= failureCount (shared two_done) <= Z.max 3 1.
Proof.
  assert (H0 : state fresh3 <> HALF_OPEN) by discriminate.
  assert (H1 : fire_all (spawn fresh3 [failing "service unavailable"; healthy] w0)
                        one_then_other = Some two_done)
    by (vm_compute; reflexivity).
  assert (H2 : forall j, probing (pcs two_done j) = false)
    by (intros [|[|[|j]]]; vm_compute; reflexivity).
  assert (H3 : 3 <= max_int64) by (vm_compute; discriminate).
  exact (proj2 (concurrent_calls_are_sequential fresh3
                  [failing "service unavailable"; healthy] w0 one_then_other
                  (s := two_done) H0 H1 H2) 3 (5 * Second) eq_refl H3).
Defined.

Lemma open_demo_blocks_all_witness :
  Run.calm (150 * Millisecond) Run.quiet /\
  exists t w',
    Run.runOpenStateDemo Run.quiet = Some (t, w') /\ Run.blocked t = 8.
Proof.
  assert (H : Run.calm (150 * Millisecond) Run.quiet)
    by (intros k; vm_compute; discriminate).
  split; [exact H|].
  destruct (RunFacts.open_demo_blocks_all Run.quiet H)
    as (t & w' & Hrun & _ & _ & Hb & _).
  exists t, w'. split; [exact Hrun|exact Hb].
Defined.


End MoreScenarios.
